(** * fast_dissolve: outer boundary of a polygon layer

    A shallow embedding of [src/py/fast_dissolve.py].  The module is a thin
    layer over shapely and geopandas: the functions of the file are embedded
    here as they are written, and the geometric kernels they call (area,
    offsetting, clipping, bounding boxes, file reading) are the fields of the
    class [GeoBackend], so every statement holds for whatever those kernels
    compute.

    Python floats are IEEE binary64 numbers: they are Rocq's primitive
    [float], with [PrimFloat.eqb] for [==], [PrimFloat.ltb] for [<],
    [PrimFloat.sub]/[PrimFloat.add] for [-=]/[+=] and [PrimFloat.opp] for
    unary minus. *)

From Stdlib Require Import Floats ZArith.
From stdpp Require Import base option list strings gmap.

Set Default Proof Using "Type".

(** A decimal literal stands for the nearest binary64 number, as in Python. *)
Set Warnings "-inexact-float".

(** ** Data model *)

(** A coordinate pair, and a [LinearRing]: a closed sequence of coordinates
    (its last point repeats its first). *)
Definition Coord : Type := float * float.
Definition Ring : Type := list Coord.

(** A shapely [Polygon]: the exterior ring and the interior rings (holes), in
    the order [poly.interiors] yields them. *)
Record Polygon : Type := mkPolygon {
  exterior : Ring;
  interiors : list Ring
}.

(** The geometries that reach this module: a [Polygon] or a [MultiPolygon]
    (the constituent polygons in [geoms] order). *)
Inductive Geometry : Type :=
  | GPolygon (p : Polygon)
  | GMultiPolygon (geoms : list Polygon).

(** The coordinate reference system attached to a collection, [None] when
    the collection has none. *)
Definition CRS : Type := option string.

(** A [GeoSeries]: its CRS and its rows, under the default integer index
    0, 1, ..., n-1, so that the label of a row is its position. *)
Record GeoSeries : Type := mkGeoSeries {
  crs : CRS;
  values : list Geometry
}.

(** A [GeoDataFrame], reduced to what the module reads: its CRS and its
    geometry column, again under the default index. *)
Record GeoDataFrame : Type := mkGeoDataFrame {
  df_crs : CRS;
  df_rows : list Geometry
}.

(** [df.geometry]: the geometry column as a [GeoSeries] with the frame's CRS. *)
Definition geometry (df : GeoDataFrame) : GeoSeries :=
  mkGeoSeries (df_crs df) (df_rows df).

(** [series.apply(f)] of geopandas: [f] on every row, in row order; the
    result keeps the index and the CRS of the series. *)
Definition GeoSeries_apply (f : Geometry → Geometry) (s : GeoSeries) : GeoSeries :=
  mkGeoSeries (crs s) (f <$> values s).

(** [Polygon(shell, holes)].  Every shell this module passes is already a
    closed ring (the coordinates of a [LinearRing], or the five-point list of
    [dissolve_geopandas], which repeats its first point), so the constructor
    stores it as it is. *)
Definition Polygon_new (shell : Ring) (holes : list Ring) : Polygon :=
  mkPolygon shell holes.

(** [isinstance(g, MultiPolygon)]. *)
Definition isinstance_MultiPolygon (g : Geometry) : bool :=
  match g with
  | GMultiPolygon _ => true
  | GPolygon _ => false
  end.

(** shapely's join styles and the integer codes [join_style=] takes. *)
Inductive JoinStyle : Type := JOIN_round | JOIN_mitre | JOIN_bevel.

Definition join_style_code (s : JoinStyle) : Z :=
  match s with
  | JOIN_round => 1
  | JOIN_mitre => 2
  | JOIN_bevel => 3
  end.

(** ** The geometric kernels, outside this repository *)

Class GeoBackend : Type := {
  (** [p.area] *)
  Polygon_area : Polygon → float;
  (** [g.buffer(distance, join_style=code)] *)
  Geometry_buffer : Geometry → float → Z → Geometry;
  (** [df.total_bounds], as [(minx, miny, maxx, maxy)] *)
  total_bounds : GeoDataFrame → float * float * float * float;
  (** [gpd.clip(gdf, mask)] *)
  gpd_clip : GeoDataFrame → GeoDataFrame → GeoDataFrame;
  (** the CRS [pd.concat] gives the concatenation of two series, from
      the CRS of each *)
  concat_crs : CRS → CRS → CRS;
  (** [gpd.read_file(path)] *)
  gpd_read_file : string → GeoDataFrame
}.

(** ** The functions of fast_dissolve.py *)

Section fast_dissolve.
Context `{GeoBackend}.

(** [buffer], lines 27-31. *)
Definition dist : float := 0.00001%float.

Definition buffer (poly : Geometry) : Geometry :=
  Geometry_buffer (Geometry_buffer poly dist 2) (PrimFloat.opp dist) 2.

(** The [for interior in poly.interiors] loop of [close_holes], lines 55-58:
    [list_interiors] is the list built so far, [rings] what is left to
    visit. *)
Fixpoint close_holes_loop (area_max : float) (rings : list Ring)
    (list_interiors : list Ring) : list Ring :=
  match rings with
  | [] => list_interiors
  | interior :: rest =>
      let p := Polygon_new interior [] in
      if PrimFloat.ltb area_max (Polygon_area p)
      then close_holes_loop area_max rest (list_interiors ++ [interior])
      else close_holes_loop area_max rest list_interiors
  end.

(** [close_holes], lines 34-60.  [if poly.interiors:] tests that the
    sequence of interior rings is not empty. *)
Definition close_holes (poly : Polygon) (area_max : float) : Polygon :=
  if PrimFloat.eqb area_max 0
  then
    match interiors poly with
    | _ :: _ => Polygon_new (exterior poly) []
    | [] => poly
    end
  else
    let list_interiors := close_holes_loop area_max (interiors poly) [] in
    Polygon_new (exterior poly) list_interiors.

(** What the lambda of [fill_geopandas] does on one row: on a [MultiPolygon]
    the attribute [interiors] does not exist and [close_holes] raises
    ([None]).  On a [Polygon] the row of the result is the polygon
    [close_holes] returned.  When that polygon was built on line 60 from an
    empty exterior it is an empty geometry, which a series of geopandas
    does not give back as a [Polygon]: statements that read a returned
    series again are made for rows with a non-empty exterior. *)
Definition close_holes_row (area_max : float) (p : Geometry) : option Geometry :=
  match p with
  | GPolygon poly => Some (GPolygon (close_holes poly area_max))
  | GMultiPolygon _ => None
  end.

(** [fill_geopandas], lines 74-76: [None] when the lambda raises on a row. *)
Definition fill_geopandas (df : GeoDataFrame) (area_max : float) : option GeoSeries :=
  filled ← mapM (close_holes_row area_max) (values (geometry df));
  Some (mkGeoSeries (crs (geometry df)) filled).

(** Lines 92-102 of [dissolve_geopandas]: the rectangle around the layer.
    [left0], ... are the four bounds as unpacked on line 92; [left], ... the
    same variables after lines 93-96. *)
Definition bounding_rect (df : GeoDataFrame) : GeoDataFrame :=
  let '(left0, bottom0, right0, top0) := total_bounds df in
  let left := PrimFloat.sub left0 1 in
  let right := PrimFloat.add right0 1 in
  let top := PrimFloat.add top0 1 in
  let bottom := PrimFloat.sub bottom0 1 in
  let lat_point_list := [left; right; right; left; left] in
  let lon_point_list := [top; top; bottom; bottom; top] in
  let polygon_geom := Polygon_new (zip lat_point_list lon_point_list) [] in
  mkGeoDataFrame (df_crs df) [GPolygon polygon_geom].

(** Lines 103-107: the rectangle clipped by the layer, every row then passed
    through [buffer]. *)
Definition buffered_clip (df : GeoDataFrame) : GeoSeries :=
  let rect := bounding_rect df in
  let clipped := gpd_clip rect df in
  GeoSeries_apply buffer (geometry clipped).

(** [GeoDataFrame(geometry=GeoSeries(g)).explode().reset_index().loc[:, 'geometry']]:
    one row per constituent polygon of [g], in order, in a series of its own
    that was given no CRS. *)
Definition explode (g : Geometry) : GeoSeries :=
  match g with
  | GMultiPolygon geoms => mkGeoSeries None (GPolygon <$> geoms)
  | GPolygon p => mkGeoSeries None [GPolygon p]
  end.

(** [s.loc[start:]]: under the default index, the rows from position
    [start] on. *)
Definition loc_from (s : GeoSeries) (start : nat) : GeoSeries :=
  mkGeoSeries (crs s) (drop start (values s)).

(** [gpd.GeoSeries(pd.concat([a, b], axis=0, ignore_index=True))]: the rows
    of [a], then the rows of [b], under a new default index. *)
Definition pd_concat (a b : GeoSeries) : GeoSeries :=
  mkGeoSeries (concat_crs (crs a) (crs b)) (values a ++ values b).

(** One iteration of the loop of lines 111-122 at index [i]: [clipped_] is
    the value of the variable before the iteration, the result its value
    after.  [i] is a label of [clipped.index], so [clipped.loc[i]] is a row
    of the series. *)
Definition splice_step (clipped clipped_ : GeoSeries) (i : nat) : GeoSeries :=
  match values clipped !! i with
  | Some g =>
      if isinstance_MultiPolygon g
      then
        let clipped_explode := explode g in
        pd_concat (loc_from clipped (S i)) clipped_explode
      else clipped_
  | None => clipped_
  end.

(** [clipped.index]: the labels 0, ..., n-1. *)
Definition index (s : GeoSeries) : list nat := seq 0 (length (values s)).

(** Lines 109-124: [clipped_] starts as a copy of [clipped], the loop runs
    over [clipped.index], and [clipped_] is returned. *)
Definition splice_loop (clipped : GeoSeries) : GeoSeries :=
  let clipped_ := clipped in
  foldl (splice_step clipped) clipped_ (index clipped).

(** [dissolve_geopandas], lines 79-124. *)
Definition dissolve_geopandas (df : GeoDataFrame) : GeoSeries :=
  splice_loop (buffered_clip df).

(** [dissolve_shp], lines 63-71. *)
Definition dissolve_shp (shp : string) : GeoSeries :=
  let df := gpd_read_file shp in
  dissolve_geopandas df.

End fast_dissolve.

(** ** The same functions over a store of objects

    Python passes references: a geometry or a collection is an object in a
    store, a function receives and returns addresses, and [return poly]
    returns the address it was given.  The store holds the shapely
    geometries and the geopandas collections (whose rows are addresses of
    geometries); coordinate sequences and Python lists are values.  A
    computation takes the store and returns a result with the new store, or
    [None] when it raises. *)

Module Obj.

Definition loc : Type := nat.

Inductive obj : Type :=
  | OGeometry (g : Geometry)
  | OGeoSeries (c : CRS) (rows : list loc)
  | OGeoDataFrame (c : CRS) (rows : list loc).

Abbreviation heap := (gmap loc obj).

Definition M (A : Type) : Type := heap → option (A * heap).

#[global] Instance M_ret : MRet M := λ A a h, Some (a, h).

#[global] Instance M_bind : MBind M := λ A B f m h,
  match m h with
  | Some (a, h') => f a h'
  | None => None
  end.

(** An exception. *)
Definition raise {A} : M A := λ _, None.

(** A new object, at an address the store does not use yet. *)
Definition alloc (o : obj) : M loc := λ h,
  let l := fresh (dom h) in Some (l, <[l:=o]> h).

Definition load (l : loc) : M obj := λ h,
  match h !! l with
  | Some o => Some (o, h)
  | None => None
  end.

(** The geometry at [l]. *)
Definition load_geometry (l : loc) : M Geometry :=
  o ← load l;
  match o with
  | OGeometry g => mret g
  | _ => raise
  end.

(** The CRS and the rows of the collection at [l]. *)
Definition load_rows (l : loc) : M (CRS * list loc) :=
  o ← load l;
  match o with
  | OGeoSeries c rows | OGeoDataFrame c rows => mret (c, rows)
  | OGeometry _ => raise
  end.

(** What a kernel of the backend reads of the frame at [df]: its CRS and
    the geometries of its rows. *)
Definition snapshot (df : loc) : M GeoDataFrame :=
  '(c, rows) ← load_rows df;
  gs ← mapM load_geometry rows;
  mret (mkGeoDataFrame c gs).

(** What a kernel of the backend returns: new geometries in a new frame. *)
Definition new_frame (f : GeoDataFrame) : M loc :=
  rows ← mapM (λ g, alloc (OGeometry g)) (df_rows f);
  alloc (OGeoDataFrame (df_crs f) rows).

(** [df.geometry]: a series object over the rows of the frame. *)
Definition geometry (df : loc) : M loc :=
  '(c, rows) ← load_rows df;
  alloc (OGeoSeries c rows).

(** [s.apply(f)]: a new series, [f] on every row in row order. *)
Definition GeoSeries_apply (f : loc → M loc) (s : loc) : M loc :=
  '(c, rows) ← load_rows s;
  rows' ← mapM f rows;
  alloc (OGeoSeries c rows').

(** [s.copy()]: a new series over the same geometries. *)
Definition copy (s : loc) : M loc :=
  '(c, rows) ← load_rows s;
  alloc (OGeoSeries c rows).

Section fast_dissolve.
Context `{GeoBackend}.

(** [buffer], lines 27-31: each [.buffer] call builds a new geometry. *)
Definition buffer (poly : loc) : M loc :=
  g ← load_geometry poly;
  expanded ← alloc (OGeometry (Geometry_buffer g dist 2));
  g' ← load_geometry expanded;
  alloc (OGeometry (Geometry_buffer g' (PrimFloat.opp dist) 2)).

(** The loop of lines 55-58; [Polygon(interior)] is a new object. *)
Fixpoint close_holes_loop (area_max : float) (rings : list Ring)
    (list_interiors : list Ring) : M (list Ring) :=
  match rings with
  | [] => mret list_interiors
  | interior :: rest =>
      p ← alloc (OGeometry (GPolygon (Polygon_new interior [])));
      g ← load_geometry p;
      match g with
      | GPolygon pg =>
          if PrimFloat.ltb area_max (Polygon_area pg)
          then close_holes_loop area_max rest (list_interiors ++ [interior])
          else close_holes_loop area_max rest list_interiors
      | GMultiPolygon _ => raise
      end
  end.

(** [close_holes], lines 34-60.  A [MultiPolygon] has no attribute
    [interiors]: the function raises on it. *)
Definition close_holes (poly : loc) (area_max : float) : M loc :=
  g ← load_geometry poly;
  match g with
  | GMultiPolygon _ => raise
  | GPolygon pg =>
      if PrimFloat.eqb area_max 0
      then
        match interiors pg with
        | _ :: _ => alloc (OGeometry (GPolygon (Polygon_new (exterior pg) [])))
        | [] => mret poly
        end
      else
        list_interiors ← close_holes_loop area_max (interiors pg) [];
        alloc (OGeometry (GPolygon (Polygon_new (exterior pg) list_interiors)))
  end.

(** [fill_geopandas], lines 74-76. *)
Definition fill_geopandas (df : loc) (area_max : float) : M loc :=
  s ← geometry df;
  filled ← GeoSeries_apply (λ p, close_holes p area_max) s;
  mret filled.

(** The explode chain of lines 113-115 and 119: a new geometry for every
    row of the exploded series (the value-level [explode] above), in a new
    series. *)
Definition explode (g : Geometry) : M loc :=
  let exploded : GeoSeries := explode g in
  parts ← mapM (λ g', alloc (OGeometry g')) (values exploded);
  alloc (OGeoSeries (crs exploded) parts).

(** [s.loc[start:]]: a new series over the rows from [start] on. *)
Definition loc_from (s : loc) (start : nat) : M loc :=
  '(c, rows) ← load_rows s;
  alloc (OGeoSeries c (drop start rows)).

(** [gpd.GeoSeries(pd.concat([a, b], axis=0, ignore_index=True))]. *)
Definition pd_concat (a b : loc) : M loc :=
  '(ca, rows_a) ← load_rows a;
  '(cb, rows_b) ← load_rows b;
  alloc (OGeoSeries (concat_crs ca cb) (rows_a ++ rows_b)).

(** One iteration of the loop of lines 111-122. *)
Definition splice_step (clipped clipped_ : loc) (i : nat) : M loc :=
  '(_, rows) ← load_rows clipped;
  match rows !! i with
  | Some l =>
      g ← load_geometry l;
      if isinstance_MultiPolygon g
      then
        clipped_explode ← explode g;
        rest ← loc_from clipped (S i);
        pd_concat rest clipped_explode
      else mret clipped_
  | None => raise
  end.

(** The [for i in clipped.index] loop over the labels [idx]. *)
Fixpoint splice_for (clipped clipped_ : loc) (idx : list nat) : M loc :=
  match idx with
  | [] => mret clipped_
  | i :: idx' =>
      clipped_ ← splice_step clipped clipped_ i;
      splice_for clipped clipped_ idx'
  end.

(** [dissolve_geopandas], lines 79-124. *)
Definition dissolve_geopandas (df : loc) : M loc :=
  frame ← snapshot df;
  let '(left0, bottom0, right0, top0) := total_bounds frame in
  let left := PrimFloat.sub left0 1 in
  let right := PrimFloat.add right0 1 in
  let top := PrimFloat.add top0 1 in
  let bottom := PrimFloat.sub bottom0 1 in
  let lat_point_list := [left; right; right; left; left] in
  let lon_point_list := [top; top; bottom; bottom; top] in
  polygon_geom ← alloc (OGeometry (GPolygon (Polygon_new (zip lat_point_list lon_point_list) [])));
  rect ← alloc (OGeoDataFrame (df_crs frame) [polygon_geom]);
  rect_frame ← snapshot rect;
  clipped ← new_frame (gpd_clip rect_frame frame);
  s ← geometry clipped;
  clipped ← GeoSeries_apply buffer s;
  clipped_ ← copy clipped;
  '(_, rows) ← load_rows clipped;
  splice_for clipped clipped_ (seq 0 (length rows)).

End fast_dissolve.

(** Reading a collection back from the store: the series at [l] as a value. *)
Definition series_at (h : heap) (l : loc) : option GeoSeries :=
  o ← h !! l;
  match o with
  | OGeoSeries c rows | OGeoDataFrame c rows =>
      gs ← mapM (λ r, o' ← h !! r; match o' with OGeometry g => Some g | _ => None end) rows;
      Some (mkGeoSeries c gs)
  | OGeometry _ => None
  end.

(** The geometry at [l] as a value. *)
Definition geometry_at (h : heap) (l : loc) : option Geometry :=
  o ← h !! l;
  match o with
  | OGeometry g => Some g
  | _ => None
  end.

(** Predicates on computations. *)

(** [m] changes no object: every object of the store it starts from is in
    the store it ends with, at the same address and with the same content. *)
Definition preserves {A} (m : M A) : Prop :=
  ∀ h a h', m h = Some (a, h') → h ⊆ h'.

(** [m] returns an object made during the call: its address is not used by
    the store [m] starts from, and holds an object in the store it ends with. *)
Definition returns_new (m : M loc) : Prop :=
  ∀ h l h', m h = Some (l, h') → h !! l = None ∧ is_Some (h' !! l).

(** [m] returns and the result satisfies [Q]. *)
Definition wp {A} (m : M A) (h : heap) (Q : A → heap → Prop) : Prop :=
  ∃ a h', m h = Some (a, h') ∧ Q a h'.

(** The rows [rows] hold the geometries [gs], position by position. *)
Definition rows_hold (h : heap) (rows : list loc) (gs : list Geometry) : Prop :=
  Forall2 (λ r g, geometry_at h r = Some g) rows gs.

(** Whenever [m] returns, the result satisfies [Q]. *)
Definition wlp {A} (m : M A) (h : heap) (Q : A → heap → Prop) : Prop :=
  ∀ a h', m h = Some (a, h') → Q a h'.

(** [l] is a series of [h] whose rows are all objects made after the store
    was [h0]: none of their addresses is used by [h0]. *)
Definition made_since (h0 h : heap) (l : loc) : Prop :=
  ∃ c rows, h !! l = Some (OGeoSeries c rows)
            ∧ Forall (λ r, h0 !! r = None) rows.

(** The collection at [l] has the CRS and, row by row, the geometries of
    the series [s]. *)
Definition holds (h : heap) (l : loc) (s : GeoSeries) : Prop :=
  ∃ rows, (h !! l = Some (OGeoSeries (crs s) rows)
           ∨ h !! l = Some (OGeoDataFrame (crs s) rows))
          ∧ rows_hold h rows (values s).

End Obj.

(** ** Vocabulary of the statements *)

Section vocabulary.
Context `{GeoBackend}.

(** The hole bounded by [interior] is larger than [area_max]: the test of
    line 57 on the polygon of line 56. *)
Definition hole_larger (area_max : float) (interior : Ring) : Prop :=
  PrimFloat.ltb area_max (Polygon_area (Polygon_new interior [])) = true.

#[global] Instance hole_larger_dec area_max interior :
  Decision (hole_larger area_max interior).
Proof. unfold hole_larger. apply _. Defined.

(** The contract of [buffer] in the words of the specification: offset
    outward by [distance] with the given join, then inward by the same
    distance with the same join.  shapely offsets outward for a positive
    distance and inward for a negative one. *)
Definition offset_outward (g : Geometry) (distance : float) (s : JoinStyle) : Geometry :=
  Geometry_buffer g distance (join_style_code s).

Definition offset_inward (g : Geometry) (distance : float) (s : JoinStyle) : Geometry :=
  Geometry_buffer g (PrimFloat.opp distance) (join_style_code s).

Definition expand_then_shrink (g : Geometry) (distance : float) : Geometry :=
  offset_inward (offset_outward g distance JOIN_mitre) distance JOIN_mitre.

(** A series passed where [fill_geopandas] expects a frame: the attribute
    [geometry] of a [GeoSeries] is the series itself. *)
Definition as_frame (s : GeoSeries) : GeoDataFrame :=
  mkGeoDataFrame (crs s) (values s).

(** No [Polygon] row is empty: each has coordinates in its exterior ring. *)
Definition no_empty_polygon (rows : list Geometry) : Prop :=
  ∀ poly, GPolygon poly ∈ rows → exterior poly ≠ [].

(** The explosion that keeps every row in its place: each row replaced by
    the rows of its [explode], the other rows untouched, in row order. *)
Definition explode_all (rows : list Geometry) : list Geometry :=
  rows ≫= λ g, values (explode g).

End vocabulary.

(** ** A backend to run the definitions on

    A small stand-in for shapely and geopandas, for evaluating the functions
    on concrete layers.  Its clip is the footprint of the mask, which is
    what clipping gives when the polygons of the mask are pairwise disjoint
    and lie inside every row that is clipped; its offsetting leaves a
    geometry as it is. *)

Module Sample.

(** The shoelace sum over consecutive points of a ring. *)
Fixpoint shoelace (ring : Ring) : float :=
  match ring with
  | (x1, y1) :: rest =>
      match rest with
      | (x2, y2) :: _ =>
          PrimFloat.add (PrimFloat.sub (PrimFloat.mul x1 y2) (PrimFloat.mul x2 y1))
                        (shoelace rest)
      | [] => 0
      end
  | [] => 0
  end.

Definition ring_area (ring : Ring) : float :=
  PrimFloat.div (PrimFloat.abs (shoelace ring)) 2.

Definition area (p : Polygon) : float :=
  foldl (λ a hole, PrimFloat.sub a (ring_area hole)) (ring_area (exterior p)) (interiors p).

Definition polygons (g : Geometry) : list Polygon :=
  match g with
  | GPolygon p => [p]
  | GMultiPolygon geoms => geoms
  end.

Definition fmin (a b : float) : float := if PrimFloat.ltb b a then b else a.
Definition fmax (a b : float) : float := if PrimFloat.ltb a b then b else a.

Definition bounds (df : GeoDataFrame) : float * float * float * float :=
  match (df_rows df ≫= polygons) ≫= exterior with
  | (x, y) :: rest =>
      foldl (λ '(minx, miny, maxx, maxy) '(x', y'),
               (fmin minx x', fmin miny y', fmax maxx x', fmax maxy y'))
            (x, y, x, y) rest
  | [] => (nan, nan, nan, nan)
  end.

Definition footprint (mask : GeoDataFrame) : list Geometry :=
  match df_rows mask ≫= polygons with
  | [] => []
  | [p] => [GPolygon p]
  | geoms => [GMultiPolygon geoms]
  end.

Definition clip (gdf mask : GeoDataFrame) : GeoDataFrame :=
  mkGeoDataFrame (df_crs gdf) (df_rows gdf ≫= λ _, footprint mask).

Definition backend : GeoBackend := {|
  Polygon_area := area;
  Geometry_buffer := λ g _ _, g;
  total_bounds := bounds;
  gpd_clip := clip;
  concat_crs := λ a b, match a with Some _ => a | None => b end;
  gpd_read_file := λ _, mkGeoDataFrame None []
|}.

(** The axis-parallel square with lower left corner [(x, y)] and side [w],
    as a closed ring. *)
Definition square (x y w : float) : Ring :=
  let x' := PrimFloat.add x w in
  let y' := PrimFloat.add y w in
  [(x, y); (x', y); (x', y'); (x, y'); (x, y)].

(** A 10 x 10 square with a hole of area 1 and a hole of area 4. *)
Definition plate : Polygon :=
  mkPolygon (square 0 0 10) [square 1 1 1; square 5 5 2].

(** Two squares without holes that neither overlap nor touch. *)
Definition west : Polygon := mkPolygon (square 0 0 1) [].
Definition east : Polygon := mkPolygon (square 3 0 1) [].

Definition wgs84 : CRS := Some "EPSG:4326"%string.

(** A layer of one polygon, and a layer of two disjoint ones. *)
Definition one_square : GeoDataFrame := mkGeoDataFrame wgs84 [GPolygon west].
Definition two_squares : GeoDataFrame :=
  mkGeoDataFrame wgs84 [GPolygon west; GPolygon east].

(** A series with two [MultiPolygon] rows. *)
Definition two_multipolygons : GeoSeries :=
  mkGeoSeries None [GMultiPolygon [west; east]; GMultiPolygon [plate]].

(** A store with one square at address 0. *)
Definition one_polygon_store : gmap Obj.loc Obj.obj :=
  {[ 0 := Obj.OGeometry (GPolygon west) ]}.

(** A store with the layer of two squares: the squares at addresses 0 and 1,
    the frame at address 2. *)
Definition layer_store : gmap Obj.loc Obj.obj :=
  {[ 0 := Obj.OGeometry (GPolygon west);
     1 := Obj.OGeometry (GPolygon east);
     2 := Obj.OGeoDataFrame wgs84 [0; 1] ]}.

(** A frame of the plate and a square. *)
Definition plate_and_square : GeoDataFrame :=
  mkGeoDataFrame None [GPolygon plate; GPolygon west].


(** A series with a [MultiPolygon] in row 0 and a [Polygon] in row 1. *)
Definition multipolygon_then_plate : GeoSeries :=
  mkGeoSeries None [GMultiPolygon [west; east]; GPolygon plate].

End Sample.

(** ** Facts about binary64 comparisons *)

Lemma SFcompare_Eq_sym x y : SFcompare x y = Some Eq → SFcompare y x = Some Eq.
Proof.
  destruct x as [s|s| |s m e], y as [s'|s'| |s' m' e']; simpl; try done;
    try (by destruct s); try (by destruct s'); try (by destruct s, s').
  destruct s, s'; try done; intros [= Hc].
  - destruct (Z.compare e e') eqn:He; try done.
    apply Z.compare_eq in He as ->. rewrite Z.compare_refl.
    destruct (Pos.compare_cont Eq m m') eqn:Hm; try done.
    apply Pos.compare_eq in Hm as ->. by rewrite Pos.compare_cont_refl.
  - destruct (Z.compare e e') eqn:He; try done.
    apply Z.compare_eq in He as ->. rewrite Z.compare_refl.
    apply Pos.compare_eq in Hc as ->. by rewrite Pos.compare_cont_refl.
Qed.

(** [a == b] excludes [a > b]. *)
Lemma float_eqb_not_ltb (a b : float) :
  PrimFloat.eqb a b = true → PrimFloat.ltb b a = false.
Proof.
  rewrite FloatAxioms.eqb_spec, FloatAxioms.ltb_spec. unfold SFeqb, SFltb.
  destruct (SFcompare (Prim2SF a) (Prim2SF b)) as [[]|] eqn:Hc; try done.
  intros _. by rewrite (SFcompare_Eq_sym _ _ Hc).
Qed.

(** [a < b] excludes [a == b]. *)
Lemma float_ltb_not_eqb (a b : float) :
  PrimFloat.ltb a b = true → PrimFloat.eqb a b = false.
Proof.
  rewrite FloatAxioms.eqb_spec, FloatAxioms.ltb_spec. unfold SFeqb, SFltb.
  by destruct (SFcompare (Prim2SF a) (Prim2SF b)) as [[]|].
Qed.

(** A negative number is below every number that is at least zero. *)
Lemma float_ltb_neg_nonneg (m a : float) :
  PrimFloat.ltb m 0 = true → PrimFloat.leb 0 a = true → PrimFloat.ltb m a = true.
Proof.
  rewrite !FloatAxioms.ltb_spec, FloatAxioms.leb_spec. unfold SFltb, SFleb.
  change (Prim2SF 0) with (S754_zero false).
  destruct (Prim2SF m) as [s|s| |s em ee], (Prim2SF a) as [s'|s'| |s' m' e']; simpl;
    try done; try (by destruct s); try (by destruct s'); try (by destruct s, s').
Qed.

(** [a <= b] and [b < x] give [a < x]. *)
Lemma SF_leb_ltb_trans x y z :
  SFleb x y = true → SFltb y z = true → SFltb x z = true.
Proof.
  unfold SFleb, SFltb.
  destruct x as [s1|s1| |s1 m1 e1], y as [s2|s2| |s2 m2 e2],
    z as [s3|s3| |s3 m3 e3]; simpl; try done;
    try (by destruct s1); try (by destruct s2); try (by destruct s3);
    try (by destruct s1, s2); try (by destruct s2, s3); try (by destruct s1, s3);
    try (by destruct s1, s2, s3).
  change (Pos.compare_cont Eq) with Pos.compare.
  destruct s1, s2, s3; try done;
    destruct (Z.compare_spec e1 e2), (Z.compare_spec e2 e3), (Z.compare_spec e1 e3);
    try done; try lia;
    destruct (Pos.compare_spec m1 m2), (Pos.compare_spec m2 m3), (Pos.compare_spec m1 m3);
    simpl; try done; try lia.
Qed.

Lemma float_leb_ltb_trans (a b x : float) :
  PrimFloat.leb a b = true → PrimFloat.ltb b x = true → PrimFloat.ltb a x = true.
Proof.
  rewrite FloatAxioms.leb_spec, !FloatAxioms.ltb_spec. apply SF_leb_ltb_trans.
Qed.

(** A NaN is not below any number and is not [== 0]. *)
Lemma float_nan_compare (a x : float) :
  PrimFloat.is_nan a = true →
  PrimFloat.ltb a x = false ∧ PrimFloat.eqb a 0 = false.
Proof.
  unfold PrimFloat.is_nan.
  rewrite !FloatAxioms.eqb_spec, FloatAxioms.ltb_spec. unfold SFeqb, SFltb.
  destruct (Prim2SF a) as [s|s| |s m e]; simpl; try done.
  - by destruct s.
  - destruct s; rewrite Z.compare_refl, Pos.compare_cont_refl; done.
Qed.

(** ** Properties of the functions *)

Section properties.
Context `{GeoBackend}.

(** *** close_holes *)

(** The loop appends to [list_interiors], in visiting order, the rings that
    pass the test. *)
Lemma close_holes_loop_filter area_max rings list_interiors :
  close_holes_loop area_max rings list_interiors
  = list_interiors ++ filter (hole_larger area_max) rings.
Proof.
  revert list_interiors.
  induction rings as [|interior rest IH]; intros acc; cbn [close_holes_loop].
  - by rewrite filter_nil, app_nil_r.
  - rewrite filter_cons.
    destruct (decide (hole_larger area_max interior)) as [Hgt|Hle];
      unfold hole_larger in *.
    + by rewrite Hgt, IH, <-app_assoc.
    + apply not_true_is_false in Hle. rewrite Hle. apply IH.
Qed.

Lemma filter_all_kept {A} (P : A → Prop) `{!∀ x, Decision (P x)} (l : list A) :
  (∀ x, x ∈ l → P x) → filter P l = l.
Proof.
  induction l as [|x l IH]; intros Hall; [done|].
  rewrite filter_cons, decide_True by (apply Hall; left).
  f_equal. apply IH. intros y Hy. apply Hall. by right.
Qed.

Lemma close_holes_exterior poly area_max :
  exterior (close_holes poly area_max) = exterior poly.
Proof.
  unfold close_holes.
  destruct (PrimFloat.eqb area_max 0); [|done].
  by destruct (interiors poly).
Qed.

Lemma close_holes_interiors_nonzero poly area_max :
  PrimFloat.eqb area_max 0 = false →
  interiors (close_holes poly area_max)
  = filter (hole_larger area_max) (interiors poly).
Proof.
  intros Hnz. unfold close_holes. rewrite Hnz. simpl.
  by rewrite close_holes_loop_filter.
Qed.

Lemma close_holes_interiors_zero poly area_max :
  PrimFloat.eqb area_max 0 = true →
  interiors (close_holes poly area_max) = [].
Proof.
  intros Hz. unfold close_holes. rewrite Hz.
  by destruct (interiors poly) eqn:Hi.
Qed.

(** C3: for a nonzero [area_max], [close_holes] returns the exterior ring of
    its input with exactly the interior rings whose polygon has an area
    strictly greater than [area_max], in their order; a ring of area equal
    to [area_max] is dropped and a ring of strictly greater area is kept. *)
Theorem close_holes_keeps_larger_holes (poly : Polygon) (area_max : float) :
  PrimFloat.eqb area_max 0 = false →
  exterior (close_holes poly area_max) = exterior poly
  ∧ interiors (close_holes poly area_max)
    = filter (hole_larger area_max) (interiors poly)
  ∧ (∀ interior, interior ∈ interiors (close_holes poly area_max)
       ↔ interior ∈ interiors poly
         ∧ PrimFloat.ltb area_max (Polygon_area (Polygon_new interior [])) = true)
  ∧ (∀ interior,
       PrimFloat.eqb (Polygon_area (Polygon_new interior [])) area_max = true →
       interior ∉ interiors (close_holes poly area_max))
  ∧ (∀ interior, interior ∈ interiors poly →
       PrimFloat.ltb area_max (Polygon_area (Polygon_new interior [])) = true →
       interior ∈ interiors (close_holes poly area_max)).
Proof.
  intros Hnz.
  pose proof (close_holes_interiors_nonzero poly area_max Hnz) as Hint.
  assert (Hmem : ∀ interior, interior ∈ interiors (close_holes poly area_max)
       ↔ interior ∈ interiors poly
         ∧ PrimFloat.ltb area_max (Polygon_area (Polygon_new interior [])) = true).
  { intros interior. rewrite Hint, list_elem_of_filter. unfold hole_larger. tauto. }
  split_and!; [apply close_holes_exterior|done|done| |].
  - intros interior Heq [_ Hgt]%Hmem.
    apply float_eqb_not_ltb in Heq. congruence.
  - intros interior Hin Hgt. by apply Hmem.
Qed.

(** C4: [close_holes poly 0] has no interior ring and the exterior ring of
    [poly]; when [poly] has no interior ring it is [poly] itself. *)
Theorem close_holes_zero (poly : Polygon) :
  interiors (close_holes poly 0) = []
  ∧ exterior (close_holes poly 0) = exterior poly
  ∧ (interiors poly = [] → close_holes poly 0 = poly).
Proof.
  split_and!.
  - by apply close_holes_interiors_zero.
  - apply close_holes_exterior.
  - intros Hnone. unfold close_holes.
    change (PrimFloat.eqb 0 0) with true. simpl. by rewrite Hnone.
Qed.

(** C9: for every [area_max], negative ones included, the interior rings of
    [close_holes poly area_max] are a subsequence of those of [poly], in the
    same order, and the exterior ring is that of [poly]; when [area_max] is
    negative, every interior ring (areas being at least zero) is kept. *)
Theorem close_holes_interiors_sublist (poly : Polygon) (area_max : float) :
  interiors (close_holes poly area_max) `sublist_of` interiors poly
  ∧ exterior (close_holes poly area_max) = exterior poly
  ∧ (PrimFloat.ltb area_max 0 = true →
     (∀ interior, interior ∈ interiors poly →
        PrimFloat.leb 0 (Polygon_area (Polygon_new interior [])) = true) →
     interiors (close_holes poly area_max) = interiors poly).
Proof.
  split_and!.
  - destruct (PrimFloat.eqb area_max 0) eqn:Hz.
    + rewrite close_holes_interiors_zero by done. apply sublist_nil_l.
    + rewrite close_holes_interiors_nonzero by done. apply sublist_filter.
  - apply close_holes_exterior.
  - intros Hneg Hpos.
    rewrite close_holes_interiors_nonzero by by apply float_ltb_not_eqb.
    apply filter_all_kept. intros interior Hin.
    by apply float_ltb_neg_nonneg, Hpos.
Qed.

(** *** buffer *)

(** C7: [buffer] offsets its argument outward by 0.00001 with a mitred join
    and then inward by the same distance with the same join. *)
Theorem buffer_expand_then_shrink (poly : Geometry) :
  buffer poly
  = offset_inward (offset_outward poly 0.00001 JOIN_mitre) 0.00001 JOIN_mitre
  ∧ buffer poly = expand_then_shrink poly dist
  ∧ PrimFloat.ltb 0 dist = true.
Proof. by split_and!. Qed.

(** *** fill_geopandas *)



(** *** dissolve_geopandas *)

(** C5: the rectangle that is clipped is the single-row frame, with the CRS
    of the input, of the polygon without holes whose ring runs through
    (left-1, top+1), (right+1, top+1), (right+1, bottom-1), (left-1, bottom-1)
    and back to the first corner. *)
Theorem bounding_rect_corners (df : GeoDataFrame) (l b r t : float) :
  total_bounds df = (l, b, r, t) →
  bounding_rect df
  = mkGeoDataFrame (df_crs df)
      [GPolygon (mkPolygon [(PrimFloat.sub l 1, PrimFloat.add t 1);
                            (PrimFloat.add r 1, PrimFloat.add t 1);
                            (PrimFloat.add r 1, PrimFloat.sub b 1);
                            (PrimFloat.sub l 1, PrimFloat.sub b 1);
                            (PrimFloat.sub l 1, PrimFloat.add t 1)] [])]
  ∧ length (df_rows (bounding_rect df)) = 1
  ∧ df_crs (bounding_rect df) = df_crs df
  ∧ buffered_clip df
    = GeoSeries_apply buffer (geometry (gpd_clip (bounding_rect df) df)).
Proof.
  intros Hbounds. unfold buffered_clip, bounding_rect. rewrite Hbounds.
  by split_and!.
Qed.

(** An iteration at a row that is not a [MultiPolygon] leaves the variable
    as it is. *)
Lemma splice_step_skip clipped clipped_ i :
  (∀ g, values clipped !! i = Some g → isinstance_MultiPolygon g = false) →
  splice_step clipped clipped_ i = clipped_.
Proof.
  intros Hrow. unfold splice_step.
  destruct (values clipped !! i) as [g|]; [|done].
  by rewrite (Hrow g).
Qed.

(** An iteration at a [MultiPolygon] row overwrites the variable. *)
Lemma splice_step_multipolygon clipped clipped_ i geoms :
  values clipped !! i = Some (GMultiPolygon geoms) →
  splice_step clipped clipped_ i
  = pd_concat (loc_from clipped (S i)) (explode (GMultiPolygon geoms)).
Proof. intros Hrow. unfold splice_step. by rewrite Hrow. Qed.

Lemma splice_fold_skip clipped clipped_ idx :
  (∀ i g, i ∈ idx → values clipped !! i = Some g →
     isinstance_MultiPolygon g = false) →
  foldl (splice_step clipped) clipped_ idx = clipped_.
Proof.
  induction idx as [|i idx IH]; intros Hrows; simpl; [done|].
  rewrite splice_step_skip by (intros g; apply Hrows; left).
  apply IH. intros j g Hj. apply Hrows. by right.
Qed.

(** The loop returns the splice of the last [MultiPolygon] row. *)
Lemma splice_loop_last clipped i geoms :
  values clipped !! i = Some (GMultiPolygon geoms) →
  (∀ j g, i < j → values clipped !! j = Some g →
     isinstance_MultiPolygon g = false) →
  splice_loop clipped
  = pd_concat (loc_from clipped (S i)) (explode (GMultiPolygon geoms)).
Proof.
  intros Hrow Hlast. unfold splice_loop, index.
  pose proof (lookup_lt_Some _ _ _ Hrow) as Hlt.
  replace (length (values clipped)) with (i + S (length (values clipped) - S i)) by lia.
  rewrite seq_app, foldl_app. simpl.
  rewrite (splice_step_multipolygon _ _ _ _ Hrow).
  apply splice_fold_skip. intros j g Hj%elem_of_seq. apply Hlast. lia.
Qed.

(** The loop on any series: when row [i] is a [MultiPolygon] and no later
    row is one, the series returned is the rows after [i] followed by the
    constituent polygons of row [i], which is what the iteration at [i]
    assigns, whatever the variable held before. *)
Lemma splice_loop_last_multipolygon (clipped : GeoSeries) (i : nat)
    (geoms : list Polygon) :
  values clipped !! i = Some (GMultiPolygon geoms) →
  (∀ j g, i < j → values clipped !! j = Some g →
     isinstance_MultiPolygon g = false) →
  values (splice_loop clipped)
  = drop (S i) (values clipped) ++ (GPolygon <$> geoms)
  ∧ ∀ clipped_, values (splice_step clipped clipped_ i)
                = drop (S i) (values clipped) ++ (GPolygon <$> geoms).
Proof.
  intros Hrow Hlast. split.
  - by rewrite (splice_loop_last _ _ _ Hrow Hlast).
  - intros clipped_. by rewrite (splice_step_multipolygon _ _ _ _ Hrow).
Qed.

(** The same through [dissolve_geopandas]. *)
Lemma dissolve_geopandas_last_multipolygon df i geoms :
  values (buffered_clip df) !! i = Some (GMultiPolygon geoms) →
  (∀ j g, i < j → values (buffered_clip df) !! j = Some g →
     isinstance_MultiPolygon g = false) →
  values (dissolve_geopandas df)
  = drop (S i) (values (buffered_clip df)) ++ (GPolygon <$> geoms).
Proof.
  intros Hrow Hlast. unfold dissolve_geopandas.
  by rewrite (splice_loop_last _ _ _ Hrow Hlast).
Qed.




(** C10: when no row of the buffered clip result is a [MultiPolygon],
    [dissolve_geopandas] returns the buffered clip result as it is, and no
    iteration of the loop changes the variable. *)
Theorem dissolve_geopandas_no_multipolygon (df : GeoDataFrame) :
  (∀ g, g ∈ values (buffered_clip df) → isinstance_MultiPolygon g = false) →
  dissolve_geopandas df = buffered_clip df
  ∧ ∀ clipped_ i, splice_step (buffered_clip df) clipped_ i = clipped_.
Proof.
  intros Hrows. split.
  - apply splice_fold_skip. intros i g _ Hg.
    apply Hrows. by eapply list_elem_of_lookup_2.
  - intros clipped_ i. apply splice_step_skip. intros g Hg.
    apply Hrows. by eapply list_elem_of_lookup_2.
Qed.

End properties.

(** ** Further properties of the functions *)

Section further_properties.
Context `{GeoBackend}.

(** *** close_holes *)

Lemma Polygon_eta poly : mkPolygon (exterior poly) (interiors poly) = poly.
Proof. by destruct poly. Qed.

(** The two branches of [close_holes]. *)
Lemma close_holes_eq_zero poly area_max :
  PrimFloat.eqb area_max 0 = true →
  close_holes poly area_max
  = match interiors poly with
    | _ :: _ => mkPolygon (exterior poly) []
    | [] => poly
    end.
Proof. intros Hz. unfold close_holes. by rewrite Hz. Qed.

Lemma close_holes_eq_nonzero poly area_max :
  PrimFloat.eqb area_max 0 = false →
  close_holes poly area_max
  = mkPolygon (exterior poly) (filter (hole_larger area_max) (interiors poly)).
Proof.
  intros Hnz. unfold close_holes. rewrite Hnz. simpl.
  by rewrite close_holes_loop_filter.
Qed.

Lemma filter_filter_implied {A} (P Q : A → Prop)
    `{!∀ x, Decision (P x)} `{!∀ x, Decision (Q x)} (l : list A) :
  (∀ x, x ∈ l → Q x → P x) → filter Q (filter P l) = filter Q l.
Proof.
  induction l as [|x l IH]; intros Himp; [done|].
  assert (filter Q (filter P l) = filter Q l) as IH'.
  { apply IH. intros y Hy. apply Himp. by right. }
  rewrite (filter_cons P). destruct (decide (P x)) as [HP|HP].
  - rewrite !filter_cons. by destruct (decide (Q x)); rewrite IH'.
  - rewrite (filter_cons Q), decide_False; [done|].
    intros HQ. apply HP, Himp; [left|done].
Qed.

Lemma filter_none_kept {A} (P : A → Prop) `{!∀ x, Decision (P x)} (l : list A) :
  (∀ x, x ∈ l → ¬ P x) → filter P l = [].
Proof.
  induction l as [|x l IH]; intros Hnone; [done|].
  rewrite filter_cons, decide_False by (apply Hnone; left).
  apply IH. intros y Hy. apply Hnone. by right.
Qed.

Lemma close_holes_sublist poly area_max :
  interiors (close_holes poly area_max) `sublist_of` interiors poly.
Proof.
  destruct (PrimFloat.eqb area_max 0) eqn:Hz.
  - rewrite close_holes_interiors_zero by done. apply sublist_nil_l.
  - rewrite close_holes_interiors_nonzero by done. apply sublist_filter.
Qed.

Lemma close_holes_twice poly area_max :
  close_holes (close_holes poly area_max) area_max = close_holes poly area_max.
Proof.
  destruct (PrimFloat.eqb area_max 0) eqn:Hz.
  - rewrite (close_holes_eq_zero (close_holes poly area_max)) by done.
    by rewrite close_holes_interiors_zero.
  - rewrite (close_holes_eq_nonzero (close_holes poly area_max)) by done.
    rewrite (close_holes_eq_nonzero poly) by done. simpl.
    f_equal. by apply filter_filter_implied.
Qed.

(** X1: filling the holes of a polygon whose holes were already filled
    with the same threshold changes nothing. *)
Theorem close_holes_idempotent (poly : Polygon) (area_max : float) :
  close_holes (close_holes poly area_max) area_max = close_holes poly area_max.
Proof. apply close_holes_twice. Qed.

(** X2: [close_holes] returns a polygon equal to its input exactly when
    there is nothing to fill: no hole at all when [area_max == 0], every
    hole larger than [area_max] otherwise. *)
Theorem close_holes_fixed_point (poly : Polygon) (area_max : float) :
  close_holes poly area_max = poly
  ↔ if PrimFloat.eqb area_max 0
    then interiors poly = []
    else ∀ interior, interior ∈ interiors poly → hole_larger area_max interior.
Proof.
  destruct (PrimFloat.eqb area_max 0) eqn:Hz.
  - rewrite close_holes_eq_zero by done.
    destruct (interiors poly) as [|r rs] eqn:Hint; [done|]. split; [|done].
    intros Heq. apply (f_equal interiors) in Heq. simpl in Heq. congruence.
  - rewrite close_holes_eq_nonzero by done. split.
    + intros Heq interior Hin. apply (f_equal interiors) in Heq. simpl in Heq.
      rewrite <-Heq in Hin. by apply list_elem_of_filter in Hin as [? _].
    + intros Hall. rewrite filter_all_kept by done. apply Polygon_eta.
Qed.

(** X3: after filling with a nonzero threshold [a], filling with a threshold
    [b >= a] gives what filling with [b] alone gives; the holes kept with
    [b] are a subsequence of those kept with [a]. *)
Theorem close_holes_raise_threshold (poly : Polygon) (a b : float) :
  PrimFloat.eqb a 0 = false →
  PrimFloat.leb a b = true →
  close_holes (close_holes poly a) b = close_holes poly b
  ∧ interiors (close_holes poly b) `sublist_of` interiors (close_holes poly a).
Proof.
  intros Ha Hab.
  assert (close_holes (close_holes poly a) b = close_holes poly b) as Heq.
  { rewrite (close_holes_eq_nonzero poly a) by done.
    destruct (PrimFloat.eqb b 0) eqn:Hb.
    - rewrite !close_holes_eq_zero by done. simpl.
      destruct (filter (hole_larger a) (interiors poly)) as [|r rs] eqn:Hkept;
        destruct (interiors poly) as [|r' rs'] eqn:Hint; try done.
      by rewrite <-Hint, Polygon_eta.
    - rewrite !close_holes_eq_nonzero by done. simpl. f_equal.
      apply filter_filter_implied. intros interior _.
      unfold hole_larger. by apply float_leb_ltb_trans. }
  split; [done|]. rewrite <-Heq. apply close_holes_sublist.
Qed.

(** X4: with a NaN threshold every hole is filled: a NaN is not [== 0] and
    no area compares greater than it. *)
Theorem close_holes_nan (poly : Polygon) (area_max : float) :
  PrimFloat.is_nan area_max = true →
  close_holes poly area_max = mkPolygon (exterior poly) [].
Proof.
  intros Hnan.
  destruct (float_nan_compare area_max 0 Hnan) as [_ Hnz].
  rewrite close_holes_eq_nonzero by done. f_equal.
  apply filter_none_kept. intros interior _. unfold hole_larger.
  destruct (float_nan_compare area_max
              (Polygon_area (Polygon_new interior [])) Hnan) as [-> _].
  done.
Qed.

(** *** fill_geopandas *)

Lemma mapM_close_holes_row_None area_max rows :
  mapM (close_holes_row area_max) rows = None
  ↔ ∃ g, g ∈ rows ∧ isinstance_MultiPolygon g = true.
Proof.
  induction rows as [|x rows IH]; simpl.
  - split; [done|]. by intros (g & ?%elem_of_nil & _).
  - destruct x as [p|geoms]; simpl.
    + destruct (mapM (close_holes_row area_max) rows) as [filled|]; simpl.
      * split; [done|]. intros (g & [->|Hg]%elem_of_cons & Hmp); [done|].
        destruct IH as [_ IH]. discriminate IH. eauto.
      * split; [|done]. intros _.
        destruct IH as [(g & Hg & Hmp) _]; [done|].
        exists g. split; [by right|done].
    + split; [|done]. intros _. exists (GMultiPolygon geoms).
      split; [left|done].
Qed.

Lemma close_holes_row_fixed area_max p q :
  close_holes_row area_max p = Some q → close_holes_row area_max q = Some q.
Proof.
  destruct p as [poly|geoms]; [|done]. intros [= <-]. simpl.
  by rewrite close_holes_twice.
Qed.

(** [fill_geopandas] keeps the exterior rings, so it returns no empty
    polygon when it was given none. *)
Lemma fill_geopandas_no_empty_polygon df area_max filled :
  no_empty_polygon (df_rows df) →
  fill_geopandas df area_max = Some filled →
  no_empty_polygon (values filled).
Proof.
  intros Hne (rows & Hmap%mapM_Some & [= <-])%bind_Some. simpl.
  intros q [i Hq]%list_elem_of_lookup.
  destruct (Forall2_lookup_r _ _ _ _ _ Hmap Hq) as (p & Hp & Hrow).
  destruct p as [poly|geoms]; [|done]. injection Hrow as <-.
  rewrite close_holes_exterior. apply Hne. by eapply list_elem_of_lookup_2.
Qed.

(** X12: on a collection without empty polygon, [fill_geopandas] applied to
    the series it returned gives that series again, which has no empty
    polygon either; when the first call raises, so does the composition. *)
Theorem fill_geopandas_idempotent (df : GeoDataFrame) (area_max : float) :
  no_empty_polygon (df_rows df) →
  fill_geopandas df area_max
    ≫= (λ filled, fill_geopandas (as_frame filled) area_max)
  = fill_geopandas df area_max
  ∧ ∀ filled, fill_geopandas df area_max = Some filled →
      no_empty_polygon (values filled).
Proof.
  intros Hne. split.
  - unfold fill_geopandas. simpl.
    destruct (mapM (close_holes_row area_max) (df_rows df)) as [filled|] eqn:Hmap;
      [|done].
    simpl. apply mapM_Some in Hmap.
    assert (mapM (close_holes_row area_max) filled = Some filled) as ->; [|done].
    apply mapM_Some, Forall_Forall2_diag, Forall_forall.
    intros q [i Hq]%list_elem_of_lookup.
    destruct (Forall2_lookup_r _ _ _ _ _ Hmap Hq) as (p & _ & Hrow).
    by eapply close_holes_row_fixed.
  - intros filled. by apply fill_geopandas_no_empty_polygon.
Qed.

(** X13: on a collection without empty polygon, every row of the series
    [fill_geopandas] returns is a [Polygon] with a non-empty exterior ring;
    it has no hole when [area_max == 0], and otherwise only holes larger
    than [area_max]. *)
Theorem fill_geopandas_rows (df : GeoDataFrame) (area_max : float)
    (filled : GeoSeries) :
  no_empty_polygon (df_rows df) →
  fill_geopandas df area_max = Some filled →
  Forall (λ g, ∃ poly, g = GPolygon poly
                       ∧ exterior poly ≠ []
                       ∧ if PrimFloat.eqb area_max 0
                         then interiors poly = []
                         else Forall (hole_larger area_max) (interiors poly))
         (values filled).
Proof.
  intros Hne Hrun.
  pose proof (fill_geopandas_no_empty_polygon _ _ _ Hne Hrun) as Hne'.
  revert Hrun Hne'.
  intros (rows & Hmap%mapM_Some & [= <-])%bind_Some. simpl. intros Hne'.
  apply Forall_forall. intros q Hq.
  pose proof Hq as [i Hi]%list_elem_of_lookup.
  destruct (Forall2_lookup_r _ _ _ _ _ Hmap Hi) as (p & _ & Hrow).
  destruct p as [poly|geoms]; [|done]. injection Hrow as <-.
  eexists. split_and!; [done|by apply Hne'|].
  destruct (PrimFloat.eqb area_max 0) eqn:Hz.
  - by apply close_holes_interiors_zero.
  - rewrite close_holes_interiors_nonzero by done.
    apply Forall_forall. intros r Hr. by apply list_elem_of_filter in Hr as [? _].
Qed.

(** *** The loop of dissolve_geopandas *)

Lemma splice_loop_skip clipped :
  (∀ g, g ∈ values clipped → isinstance_MultiPolygon g = false) →
  splice_loop clipped = clipped.
Proof.
  intros Hrows. apply splice_fold_skip. intros i g _ Hg.
  apply Hrows. by eapply list_elem_of_lookup_2.
Qed.

(** A list of rows has no [MultiPolygon], or has a last one. *)
Lemma multipolygon_rows_cases (rows : list Geometry) :
  (∀ g, g ∈ rows → isinstance_MultiPolygon g = false)
  ∨ ∃ i geoms, rows !! i = Some (GMultiPolygon geoms)
      ∧ ∀ j g, i < j → rows !! j = Some g → isinstance_MultiPolygon g = false.
Proof.
  induction rows as [|x rows IH].
  - left. by intros g ?%elem_of_nil.
  - destruct IH as [Hnone|(i & geoms & Hi & Hlast)].
    + destruct x as [p|geoms].
      * left. intros g [->|Hg]%elem_of_cons; [done|auto].
      * right. exists 0, geoms. split; [done|].
        intros j g Hj Hg. destruct j as [|j]; [lia|]. simpl in Hg.
        apply Hnone. by eapply list_elem_of_lookup_2.
    + right. exists (S i), geoms. split; [done|].
      intros j g Hj Hg. destruct j as [|j]; [lia|]. simpl in Hg.
      eapply Hlast; [|done]. lia.
Qed.

Lemma splice_loop_polygons clipped g :
  g ∈ values (splice_loop clipped) → isinstance_MultiPolygon g = false.
Proof.
  destruct (multipolygon_rows_cases (values clipped))
    as [Hnone|(i & geoms & Hi & Hlast)].
  - rewrite splice_loop_skip by done. apply Hnone.
  - rewrite (splice_loop_last _ _ _ Hi Hlast). simpl.
    intros [Hg|Hg]%elem_of_app.
    + apply list_elem_of_lookup in Hg as [k Hk].
      rewrite lookup_drop in Hk. eapply Hlast; [|done]. lia.
    + by apply list_elem_of_fmap in Hg as (p & -> & _).
Qed.

(** X6: no row of the series [dissolve_geopandas] returns is a
    [MultiPolygon], whatever the clip result was. *)
Theorem dissolve_geopandas_returns_polygons (df : GeoDataFrame) :
  Forall (λ g, isinstance_MultiPolygon g = false)
         (values (dissolve_geopandas df)).
Proof. apply Forall_forall. intros g. apply splice_loop_polygons. Qed.

(** X7: the loop of lines 109-124 run on the series it returned gives that
    series back. *)
Theorem splice_loop_idempotent (clipped : GeoSeries) :
  splice_loop (splice_loop clipped) = splice_loop clipped.
Proof. apply splice_loop_skip. intros g. apply splice_loop_polygons. Qed.

(** X8: [fill_geopandas] on the series [dissolve_geopandas] returned never
    raises, and gives a series of the same CRS and the same number of rows. *)
Theorem fill_after_dissolve_returns (df : GeoDataFrame) (area_max : float) :
  ∃ filled,
    fill_geopandas (as_frame (dissolve_geopandas df)) area_max = Some filled
    ∧ crs filled = crs (dissolve_geopandas df)
    ∧ length (values filled) = length (values (dissolve_geopandas df)).
Proof.
  unfold fill_geopandas. simpl.
  destruct (mapM (close_holes_row area_max) (values (dissolve_geopandas df)))
    as [filled|] eqn:Hmap.
  - eexists. split_and!; [done..|]. simpl.
    apply mapM_Some in Hmap. symmetry. by eapply Forall2_length.
  - apply mapM_close_holes_row_None in Hmap as (g & Hg & Hmp).
    apply splice_loop_polygons in Hg. congruence.
Qed.

(** X9: no row of the series [dissolve_shp] returns is a [MultiPolygon], so
    [fill_geopandas] returns on it. *)
Theorem dissolve_shp_returns_polygons (shp : string) (area_max : float) :
  Forall (λ g, isinstance_MultiPolygon g = false) (values (dissolve_shp shp))
  ∧ is_Some (fill_geopandas (as_frame (dissolve_shp shp)) area_max).
Proof.
  unfold dissolve_shp. split.
  - apply Forall_forall. intros g. apply splice_loop_polygons.
  - unfold fill_geopandas. simpl.
    destruct (mapM (close_holes_row area_max)
                (values (dissolve_geopandas (gpd_read_file shp))))
      as [filled|] eqn:Hmap; [by eexists|].
    apply mapM_close_holes_row_None in Hmap as (g & Hg & Hmp).
    apply splice_loop_polygons in Hg. congruence.
Qed.

Lemma explode_all_cons g rows :
  explode_all (g :: rows) = values (explode g) ++ explode_all rows.
Proof. done. Qed.

Lemma explode_all_polygons rows :
  (∀ g, g ∈ rows → isinstance_MultiPolygon g = false) →
  explode_all rows = rows.
Proof.
  induction rows as [|x rows IH]; intros Hnone; [done|].
  rewrite explode_all_cons, IH by (intros g Hg; apply Hnone; by right).
  destruct x as [p|geoms]; [done|].
  by specialize (Hnone (GMultiPolygon geoms) ltac:(left)).
Qed.

(** X10: when no row other than row 0 is a [MultiPolygon], the loop loses
    nothing: the series returned has the rows of the explosion that keeps
    every row in its place.  When row 0 is a [MultiPolygon] its constituent
    polygons come last in the series returned, after the other rows, and
    first in the explosion; otherwise the two are equal. *)
Theorem splice_loop_permutes_explosion (clipped : GeoSeries) :
  (∀ j g, 0 < j → values clipped !! j = Some g →
     isinstance_MultiPolygon g = false) →
  values (splice_loop clipped) ≡ₚ explode_all (values clipped)
  ∧ (∀ geoms, values clipped !! 0 = Some (GMultiPolygon geoms) →
       values (splice_loop clipped)
       = drop 1 (values clipped) ++ (GPolygon <$> geoms)
       ∧ explode_all (values clipped)
         = (GPolygon <$> geoms) ++ drop 1 (values clipped))
  ∧ ((∀ geoms, values clipped !! 0 ≠ Some (GMultiPolygon geoms)) →
       values (splice_loop clipped) = explode_all (values clipped)).
Proof.
  intros Hrest.
  assert (∀ g, g ∈ drop 1 (values clipped) →
            isinstance_MultiPolygon g = false) as Hnone.
  { intros g [k Hk]%list_elem_of_lookup. rewrite lookup_drop in Hk.
    apply (Hrest (1 + k) g); [lia|done]. }
  assert (∀ geoms, values clipped !! 0 = Some (GMultiPolygon geoms) →
       values (splice_loop clipped)
       = drop 1 (values clipped) ++ (GPolygon <$> geoms)
       ∧ explode_all (values clipped)
         = (GPolygon <$> geoms) ++ drop 1 (values clipped)) as Hfirst.
  { intros geoms Hrow. split.
    - by rewrite (splice_loop_last clipped 0 geoms Hrow Hrest).
    - rewrite <-(take_drop 1 (values clipped)) at 1.
      rewrite (take_S_r _ 0 _ Hrow), take_0. cbn [app].
      by rewrite explode_all_cons, explode_all_polygons. }
  assert ((∀ geoms, values clipped !! 0 ≠ Some (GMultiPolygon geoms)) →
       values (splice_loop clipped) = explode_all (values clipped)) as Hother.
  { intros Hrow.
    assert (∀ g, g ∈ values clipped → isinstance_MultiPolygon g = false) as Hall.
    { intros g [k Hk]%list_elem_of_lookup. destruct k as [|k].
      - destruct g as [p|geoms]; [done|]. by destruct (Hrow geoms).
      - apply (Hrest (S k) g); [lia|done]. }
    by rewrite splice_loop_skip, explode_all_polygons. }
  split_and!; [|done..].
  destruct (values clipped !! 0) as [[p|geoms]|] eqn:Hrow.
  - by rewrite Hother.
  - destruct (Hfirst geoms eq_refl) as [-> ->]. apply Permutation_app_comm.
  - by rewrite Hother.
Qed.

(** X11: when clipping returns no more rows than the one-row rectangle has,
    [dissolve_geopandas] returns the buffered clip result with its row, if a
    [MultiPolygon], replaced by its constituent polygons: no row is lost. *)
Theorem dissolve_geopandas_single_row (df : GeoDataFrame) :
  length (df_rows (gpd_clip (bounding_rect df) df))
  ≤ length (df_rows (bounding_rect df)) →
  values (dissolve_geopandas df) = explode_all (values (buffered_clip df)).
Proof.
  intros Hlen. unfold dissolve_geopandas.
  assert (length (values (buffered_clip df)) ≤ 1) as Hone.
  { unfold buffered_clip. simpl. rewrite length_fmap.
    etransitivity; [exact Hlen|]. unfold bounding_rect.
    by destruct (total_bounds df) as [[[? ?] ?] ?]. }
  destruct (values (buffered_clip df)) as [|x rest] eqn:Hrows.
  - rewrite splice_loop_skip; rewrite Hrows; [done|]. by intros g ?%elem_of_nil.
  - destruct rest as [|y rest]; [|simpl in Hone; lia].
    destruct x as [p|geoms].
    + rewrite splice_loop_skip; rewrite Hrows; [done|].
      by intros g ->%list_elem_of_singleton.
    + rewrite explode_all_cons. change (explode_all []) with (@nil Geometry).
      rewrite app_nil_r. rewrite (splice_loop_last _ 0 geoms).
      * unfold pd_concat, loc_from. cbn [values]. by rewrite Hrows.
      * by rewrite Hrows.
      * intros j g Hj Hg. rewrite Hrows in Hg.
        destruct j as [|j]; [lia|]. destruct j; discriminate Hg.
Qed.

End further_properties.

(** ** The functions over the store *)

Section store.
Context `{GeoBackend}.

(** *** Running a computation *)

Lemma run_bind {A B} (m : Obj.M A) (f : A → Obj.M B) h b h' :
  (m ≫= f) h = Some (b, h')
  ↔ ∃ a h1, m h = Some (a, h1) ∧ f a h1 = Some (b, h').
Proof.
  unfold mbind, Obj.M_bind. split.
  - destruct (m h) as [[a h1]|]; [|done]. intros Hf. by exists a, h1.
  - intros (a & h1 & -> & Hf). done.
Qed.

Lemma run_alloc o h l h' :
  Obj.alloc o h = Some (l, h')
  ↔ l = fresh (dom h) ∧ h' = <[l:=o]> h.
Proof.
  unfold Obj.alloc. simpl. split.
  - by intros [= <- <-].
  - by intros [-> ->].
Qed.

Lemma run_ret {A} (a : A) h a' h' :
  mret (M:=Obj.M) a h = Some (a', h') ↔ a' = a ∧ h' = h.
Proof.
  unfold mret, Obj.M_ret. split.
  - by intros [= <- <-].
  - by intros [-> ->].
Qed.

Lemma run_load l h o h' :
  Obj.load l h = Some (o, h') ↔ h !! l = Some o ∧ h' = h.
Proof.
  unfold Obj.load. destruct (h !! l) as [o'|]; split.
  - by intros [= <- <-].
  - by intros [[= ->] ->].
  - done.
  - by intros [? _].
Qed.

Lemma run_load_geometry l h g h' :
  Obj.load_geometry l h = Some (g, h') ↔ Obj.geometry_at h l = Some g ∧ h' = h.
Proof.
  unfold Obj.load_geometry, Obj.geometry_at. rewrite run_bind. split.
  - intros (o & h1 & [Ho ->]%run_load & Hret). rewrite Ho. simpl.
    destruct o; try done. by apply run_ret in Hret as [-> ->].
  - intros [Hat ->]. destruct (h !! l) as [o|] eqn:Ho; [|done].
    exists o, h. rewrite run_load. split; [done|].
    destruct o; try done. simpl in Hat. by injection Hat as ->.
Qed.

(** The collection at [l] has the CRS [c] and the rows [rows]. *)
Lemma run_load_rows l h c rows h' :
  Obj.load_rows l h = Some ((c, rows), h')
  ↔ (h !! l = Some (Obj.OGeoSeries c rows)
     ∨ h !! l = Some (Obj.OGeoDataFrame c rows)) ∧ h' = h.
Proof.
  unfold Obj.load_rows. rewrite run_bind. split.
  - intros (o & h1 & [Ho ->]%run_load & Hret).
    destruct o; try done; apply run_ret in Hret as [[= -> ->] ->]; auto.
  - intros [Hat ->].
    destruct Hat as [Hat|Hat]; eexists _, h; rewrite run_load; done.
Qed.

Lemma fresh_unused (h : Obj.heap) : h !! fresh (dom h) = None.
Proof. apply not_elem_of_dom, is_fresh. Qed.

Lemma alloc_extends (h : Obj.heap) o : h ⊆ <[fresh (dom h):=o]> h.
Proof. apply insert_subseteq, fresh_unused. Qed.

(** *** No computation changes an object *)

Lemma preserves_ret {A} (a : A) : Obj.preserves (mret a).
Proof. intros h a' h' [= _ <-]. done. Qed.

Lemma preserves_raise {A} : Obj.preserves (@Obj.raise A).
Proof. by intros h a h'. Qed.

Lemma preserves_alloc o : Obj.preserves (Obj.alloc o).
Proof. intros h l h' [-> ->]%run_alloc. apply alloc_extends. Qed.

Lemma preserves_load l : Obj.preserves (Obj.load l).
Proof.
  intros h o h'. unfold Obj.load.
  destruct (h !! l); [|done]. by intros [= _ <-].
Qed.

Lemma preserves_bind {A B} (m : Obj.M A) (f : A → Obj.M B) :
  Obj.preserves m → (∀ a, Obj.preserves (f a)) → Obj.preserves (m ≫= f).
Proof.
  intros Hm Hf h b h' (a & h1 & Hrun & Hrun')%run_bind.
  transitivity h1; [by eapply Hm|by eapply Hf].
Qed.

Lemma preserves_mapM {A B} (f : A → Obj.M B) (l : list A) :
  (∀ a, Obj.preserves (f a)) → Obj.preserves (mapM f l).
Proof.
  intros Hf. induction l as [|a l IH]; simpl.
  - apply preserves_ret.
  - apply preserves_bind; [done|]. intros b.
    apply preserves_bind; [done|]. intros bs. apply preserves_ret.
Qed.

(** One step through a computation built from the operations above. *)
Ltac preserves_step :=
  lazymatch goal with
  | |- Obj.preserves (mret _) => apply preserves_ret
  | |- Obj.preserves Obj.raise => apply preserves_raise
  | |- Obj.preserves (Obj.alloc _) => apply preserves_alloc
  | |- Obj.preserves (Obj.load _) => apply preserves_load
  | |- Obj.preserves (mapM _ _) => apply preserves_mapM; intros ?
  | |- Obj.preserves (_ ≫= _) => apply preserves_bind; [|intros ?; cbv beta]
  | |- Obj.preserves (match ?x with _ => _ end) => destruct x
  end.

Lemma preserves_load_geometry l : Obj.preserves (Obj.load_geometry l).
Proof. unfold Obj.load_geometry. repeat preserves_step. Qed.

Lemma preserves_load_rows l : Obj.preserves (Obj.load_rows l).
Proof. unfold Obj.load_rows. repeat preserves_step. Qed.

Lemma preserves_snapshot df : Obj.preserves (Obj.snapshot df).
Proof.
  unfold Obj.snapshot. repeat preserves_step;
    auto using preserves_load_rows, preserves_load_geometry.
Qed.

Lemma preserves_new_frame f : Obj.preserves (Obj.new_frame f).
Proof. unfold Obj.new_frame. repeat preserves_step. Qed.

Lemma preserves_geometry df : Obj.preserves (Obj.geometry df).
Proof.
  unfold Obj.geometry. repeat preserves_step; auto using preserves_load_rows.
Qed.

Lemma preserves_apply f s :
  (∀ l, Obj.preserves (f l)) → Obj.preserves (Obj.GeoSeries_apply f s).
Proof.
  intros Hf. unfold Obj.GeoSeries_apply.
  repeat preserves_step; auto using preserves_load_rows.
Qed.

Lemma preserves_copy s : Obj.preserves (Obj.copy s).
Proof. unfold Obj.copy. repeat preserves_step; auto using preserves_load_rows. Qed.

Lemma preserves_buffer poly : Obj.preserves (Obj.buffer poly).
Proof.
  unfold Obj.buffer. repeat preserves_step; auto using preserves_load_geometry.
Qed.

Lemma preserves_close_holes_loop area_max rings list_interiors :
  Obj.preserves (Obj.close_holes_loop area_max rings list_interiors).
Proof.
  revert list_interiors.
  induction rings as [|interior rest IH]; intros acc; simpl;
    repeat preserves_step; auto using preserves_load_geometry.
Qed.

Lemma preserves_close_holes poly area_max :
  Obj.preserves (Obj.close_holes poly area_max).
Proof.
  unfold Obj.close_holes. repeat preserves_step;
    auto using preserves_load_geometry, preserves_close_holes_loop.
Qed.

Lemma preserves_fill_geopandas df area_max :
  Obj.preserves (Obj.fill_geopandas df area_max).
Proof.
  unfold Obj.fill_geopandas. repeat preserves_step;
    auto using preserves_geometry, preserves_apply, preserves_close_holes.
Qed.

Lemma preserves_explode g : Obj.preserves (Obj.explode g).
Proof. unfold Obj.explode. cbv zeta. repeat preserves_step. Qed.

Lemma preserves_loc_from s start : Obj.preserves (Obj.loc_from s start).
Proof.
  unfold Obj.loc_from. repeat preserves_step; auto using preserves_load_rows.
Qed.

Lemma preserves_pd_concat a b : Obj.preserves (Obj.pd_concat a b).
Proof.
  unfold Obj.pd_concat. repeat preserves_step; auto using preserves_load_rows.
Qed.

Lemma preserves_splice_step clipped clipped_ i :
  Obj.preserves (Obj.splice_step clipped clipped_ i).
Proof.
  unfold Obj.splice_step. repeat preserves_step;
    auto using preserves_load_rows, preserves_load_geometry, preserves_explode,
      preserves_loc_from, preserves_pd_concat.
Qed.

Lemma preserves_splice_for clipped clipped_ idx :
  Obj.preserves (Obj.splice_for clipped clipped_ idx).
Proof.
  revert clipped_. induction idx as [|i idx IH]; intros clipped_; simpl;
    repeat preserves_step; auto using preserves_splice_step.
Qed.

Lemma preserves_dissolve_geopandas df :
  Obj.preserves (Obj.dissolve_geopandas df).
Proof.
  unfold Obj.dissolve_geopandas. repeat preserves_step;
    auto using preserves_snapshot, preserves_new_frame, preserves_geometry,
      preserves_apply, preserves_buffer, preserves_copy, preserves_load_rows,
      preserves_splice_for.
Qed.

Create HintDb store.

#[local] Hint Resolve preserves_load_geometry preserves_load_rows
  preserves_snapshot preserves_new_frame preserves_geometry preserves_apply
  preserves_copy preserves_buffer preserves_close_holes_loop
  preserves_close_holes preserves_fill_geopandas preserves_explode
  preserves_loc_from preserves_pd_concat preserves_splice_step
  preserves_splice_for preserves_dissolve_geopandas preserves_alloc
  preserves_mapM : store.

(** *** Which results are new objects *)

Lemma returns_new_alloc o : Obj.returns_new (Obj.alloc o).
Proof.
  intros h l h' [-> ->]%run_alloc. split; [apply fresh_unused|].
  rewrite lookup_insert_eq. by eexists.
Qed.

Lemma returns_new_bind {A} (m : Obj.M A) (f : A → Obj.M Obj.loc) :
  Obj.preserves m → (∀ a, Obj.returns_new (f a)) → Obj.returns_new (m ≫= f).
Proof.
  intros Hm Hf h l h' (a & h1 & Hrun & Hrun')%run_bind.
  destruct (Hf _ _ _ _ Hrun') as [Hnew Hthere]. split; [|done].
  eapply lookup_weaken_None; [done|]. by eapply Hm.
Qed.

Ltac returns_new_step :=
  lazymatch goal with
  | |- Obj.returns_new (Obj.alloc _) => apply returns_new_alloc
  | |- Obj.returns_new (_ ≫= _) =>
      apply returns_new_bind; [auto with store|intros ?; cbv beta]
  | |- Obj.returns_new (match ?x with _ => _ end) => destruct x
  end.

Lemma returns_new_geometry df : Obj.returns_new (Obj.geometry df).
Proof. unfold Obj.geometry. repeat returns_new_step. Qed.

Lemma returns_new_apply f s :
  (∀ l, Obj.preserves (f l)) → Obj.returns_new (Obj.GeoSeries_apply f s).
Proof. intros Hf. unfold Obj.GeoSeries_apply. repeat returns_new_step. Qed.

Lemma returns_new_copy s : Obj.returns_new (Obj.copy s).
Proof. unfold Obj.copy. repeat returns_new_step. Qed.

Lemma returns_new_buffer poly : Obj.returns_new (Obj.buffer poly).
Proof. unfold Obj.buffer. repeat returns_new_step. Qed.

Lemma returns_new_pd_concat a b : Obj.returns_new (Obj.pd_concat a b).
Proof. unfold Obj.pd_concat. repeat returns_new_step. Qed.

Lemma returns_new_fill_geopandas df area_max :
  Obj.returns_new (Obj.fill_geopandas df area_max).
Proof.
  intros h l h'. unfold Obj.fill_geopandas.
  intros (s & h1 & Hs & (filled & h2 & Hfilled & [= <- <-])%run_bind)%run_bind.
  destruct (returns_new_apply _ _ (λ p, preserves_close_holes p area_max)
              _ _ _ Hfilled) as [Hnew Hthere].
  split; [|done]. eapply lookup_weaken_None; [done|].
  by eapply preserves_geometry.
Qed.

(** [close_holes] returns a new polygon, except on the path of line 50,
    where it returns its argument and the store is the one it started from. *)
Lemma close_holes_result poly area_max h l h' :
  Obj.close_holes poly area_max h = Some (l, h') →
  (h !! l = None ∧ is_Some (h' !! l))
  ∨ (l = poly ∧ h' = h ∧ PrimFloat.eqb area_max 0 = true
     ∧ ∃ pg, Obj.geometry_at h poly = Some (GPolygon pg) ∧ interiors pg = []).
Proof.
  unfold Obj.close_holes.
  intros (g & h1 & Hg & Hrun)%run_bind.
  assert (h1 = h ∧ Obj.geometry_at h poly = Some g) as [-> Hat].
  { revert Hg. unfold Obj.load_geometry, Obj.geometry_at, Obj.load.
    intros (o & h2 & Hload & Hret)%run_bind. revert Hload.
    destruct (h !! poly) as [o'|]; [|done]. intros [= -> ->].
    by destruct o; try done; revert Hret; intros [= -> ->]. }
  destruct g as [pg|]; [|done].
  destruct (PrimFloat.eqb area_max 0) eqn:Hz.
  - destruct (interiors pg) eqn:Hint.
    + revert Hrun. intros [= <- <-]. right. eauto 6.
    + left. by eapply returns_new_alloc.
  - left. revert Hrun. apply returns_new_bind; [auto with store|].
    intros ?. apply returns_new_alloc.
Qed.

Lemma splice_step_result clipped clipped_ i h l h' :
  Obj.splice_step clipped clipped_ i h = Some (l, h') →
  (l = clipped_ ∧ h' = h) ∨ (h !! l = None ∧ is_Some (h' !! l)).
Proof.
  unfold Obj.splice_step.
  intros ([c rows] & h1 & [_ ->]%run_load_rows & Hrun)%run_bind.
  destruct (rows !! i) as [r|]; [|done].
  apply run_bind in Hrun as (g & h2 & [_ ->]%run_load_geometry & Hrun).
  destruct (isinstance_MultiPolygon g).
  - right.
    assert (Obj.returns_new (clipped_explode ← Obj.explode g;
              rest ← Obj.loc_from clipped (S i);
              Obj.pd_concat rest clipped_explode)) as Hnew.
    { repeat returns_new_step. apply returns_new_pd_concat. }
    exact (Hnew _ _ _ Hrun).
  - apply run_ret in Hrun as [-> ->]. by left.
Qed.

(** The loop returns the series it was given as [clipped_] or a series made
    by one of its iterations. *)
Lemma splice_for_result clipped clipped_ idx h l h' :
  Obj.splice_for clipped clipped_ idx h = Some (l, h') →
  (l = clipped_ ∧ h' = h) ∨ (h !! l = None ∧ is_Some (h' !! l)).
Proof.
  revert clipped_ h. induction idx as [|i idx IH]; intros clipped_ h; simpl.
  - intros [-> ->]%run_ret. by left.
  - intros (c1 & h1 & Hstep & Hrest)%run_bind.
    pose proof (preserves_splice_step _ _ _ _ _ _ Hstep) as Hsub.
    pose proof (preserves_splice_for _ _ _ _ _ _ Hrest) as Hsub'.
    destruct (IH _ _ Hrest) as [[-> ->]|[Hnew Hthere]].
    + destruct (splice_step_result _ _ _ _ _ _ Hstep) as [[-> ->]|?]; auto.
    + right. split; [|done]. by eapply lookup_weaken_None.
Qed.

Lemma returns_new_copy_splice clipped :
  Obj.returns_new (clipped_ ← Obj.copy clipped;
                   '(_, rows) ← Obj.load_rows clipped;
                   Obj.splice_for clipped clipped_ (seq 0 (length rows))).
Proof.
  intros h res h' (clipped_ & h1 & Hcopy & Hrun)%run_bind.
  apply run_bind in Hrun as ([c rows] & h2 & [_ ->]%run_load_rows & Hrun).
  destruct (returns_new_copy _ _ _ _ Hcopy) as [Hnew Hthere].
  pose proof (preserves_copy _ _ _ _ Hcopy) as Hsub.
  pose proof (preserves_splice_for _ _ _ _ _ _ Hrun) as Hsub'.
  destruct (splice_for_result _ _ _ _ _ _ Hrun) as [[-> ->]|[Hl Hl']].
  - done.
  - split; [|done]. by eapply lookup_weaken_None.
Qed.

Lemma returns_new_dissolve_geopandas df :
  Obj.returns_new (Obj.dissolve_geopandas df).
Proof.
  unfold Obj.dissolve_geopandas.
  repeat first [apply returns_new_copy_splice | returns_new_step].
Qed.

(** *** The functions over the store compute the functions on values *)

Lemma wp_ret {A} (a : A) h (Q : A → Obj.heap → Prop) :
  Q a h → Obj.wp (mret a) h Q.
Proof. intros HQ. by exists a, h. Qed.

Lemma wp_bind {A B} (m : Obj.M A) (f : A → Obj.M B) h (Q : B → Obj.heap → Prop) :
  Obj.wp m h (λ a h1, Obj.wp (f a) h1 Q) → Obj.wp (m ≫= f) h Q.
Proof.
  intros (a & h1 & Hm & b & h2 & Hf & HQ). exists b, h2. split; [|done].
  apply run_bind. eauto.
Qed.

Lemma wp_mono {A} (m : Obj.M A) h (Q Q' : A → Obj.heap → Prop) :
  Obj.wp m h Q → (∀ a h', Q a h' → Q' a h') → Obj.wp m h Q'.
Proof. intros (a & h' & Hm & HQ) Himp. exists a, h'. auto. Qed.

Lemma wp_alloc o h (Q : Obj.loc → Obj.heap → Prop) :
  (∀ l, h !! l = None → Q l (<[l:=o]> h)) → Obj.wp (Obj.alloc o) h Q.
Proof.
  intros HQ. exists (fresh (dom h)), (<[fresh (dom h):=o]> h).
  split; [done|]. apply HQ, fresh_unused.
Qed.

Lemma wp_load_geometry l g h (Q : Geometry → Obj.heap → Prop) :
  Obj.geometry_at h l = Some g → Q g h → Obj.wp (Obj.load_geometry l) h Q.
Proof. intros Hat HQ. exists g, h. by rewrite run_load_geometry. Qed.

Lemma wp_load_rows l s h (Q : CRS * list Obj.loc → Obj.heap → Prop) :
  Obj.holds h l s →
  (∀ rows, Obj.rows_hold h rows (values s) → Q (crs s, rows) h) →
  Obj.wp (Obj.load_rows l) h Q.
Proof.
  intros (rows & Hat & Hrows) HQ. exists (crs s, rows), h.
  rewrite run_load_rows. auto.
Qed.

Lemma geometry_at_weaken h h' l g :
  h ⊆ h' → Obj.geometry_at h l = Some g → Obj.geometry_at h' l = Some g.
Proof.
  unfold Obj.geometry_at. intros Hsub.
  destruct (h !! l) as [o|] eqn:Ho; [|done].
  by rewrite (lookup_weaken _ _ _ _ Ho Hsub).
Qed.

Lemma geometry_at_insert h l g :
  Obj.geometry_at (<[l:=Obj.OGeometry g]> h) l = Some g.
Proof. unfold Obj.geometry_at. by rewrite lookup_insert_eq. Qed.

Lemma rows_hold_weaken h h' rows gs :
  h ⊆ h' → Obj.rows_hold h rows gs → Obj.rows_hold h' rows gs.
Proof.
  intros Hsub Hrows. unfold Obj.rows_hold.
  eapply Forall2_impl; [done|]. intros r g. by apply geometry_at_weaken.
Qed.

Lemma holds_weaken h h' l s : h ⊆ h' → Obj.holds h l s → Obj.holds h' l s.
Proof.
  intros Hsub (rows & Hat & Hrows). exists rows. split.
  - destruct Hat as [Hat|Hat]; [left|right]; by eapply lookup_weaken.
  - by eapply rows_hold_weaken.
Qed.

(** A new series over rows that hold [gs]. *)
Lemma holds_insert_series h l c rows gs :
  h !! l = None → Obj.rows_hold h rows gs →
  Obj.holds (<[l:=Obj.OGeoSeries c rows]> h) l (mkGeoSeries c gs).
Proof.
  intros Hnew Hrows. exists rows. split.
  - left. by rewrite lookup_insert_eq.
  - eapply rows_hold_weaken; [|done]. by apply insert_subseteq.
Qed.

Lemma holds_insert_frame h l c rows gs :
  h !! l = None → Obj.rows_hold h rows gs →
  Obj.holds (<[l:=Obj.OGeoDataFrame c rows]> h) l (mkGeoSeries c gs).
Proof.
  intros Hnew Hrows. exists rows. split.
  - right. by rewrite lookup_insert_eq.
  - eapply rows_hold_weaken; [|done]. by apply insert_subseteq.
Qed.

(** [series_at] reads back exactly the series a collection holds. *)
Lemma series_at_holds h l s : Obj.series_at h l = Some s ↔ Obj.holds h l s.
Proof.
  unfold Obj.series_at, Obj.holds, Obj.rows_hold. split.
  - destruct (h !! l) as [o|] eqn:Ho; [|done]. simpl.
    destruct o as [g|c rows|c rows]; [done| |];
      intros (gs & Hgs%mapM_Some & [= <-])%bind_Some; exists rows; auto.
  - intros (rows & Hat & Hrows).
    assert (mapM (λ r, o' ← h !! r;
                     match o' with Obj.OGeometry g => Some g | _ => None end) rows
            = Some (values s)) as Hmap by by apply mapM_Some.
    destruct s as [c gs].
    destruct Hat as [-> | ->]; simpl in *; by rewrite Hmap.
Qed.

Lemma wp_mapM_load rows gs h :
  Obj.rows_hold h rows gs →
  Obj.wp (mapM Obj.load_geometry rows) h (λ gs' h', gs' = gs ∧ h' = h).
Proof.
  induction 1 as [|r g rows gs Hr Hrows IH]; simpl.
  - by apply wp_ret.
  - apply wp_bind. eapply wp_load_geometry; [done|].
    apply wp_bind. eapply wp_mono; [exact IH|].
    intros gs' h' [-> ->]. by apply wp_ret.
Qed.

Lemma wp_mapM_alloc gs h :
  Obj.wp (mapM (λ g, Obj.alloc (Obj.OGeometry g)) gs) h
    (λ rows h', h ⊆ h' ∧ Obj.rows_hold h' rows gs).
Proof.
  revert h. induction gs as [|g gs IH]; intros h; simpl.
  - apply wp_ret. split; [done|constructor].
  - apply wp_bind, wp_alloc. intros l Hl.
    apply wp_bind. eapply wp_mono; [apply IH|].
    intros rows h' [Hsub Hrows]. apply wp_ret. split.
    + transitivity (<[l:=Obj.OGeometry g]> h); [by apply insert_subseteq|done].
    + constructor; [|done].
      eapply geometry_at_weaken; [done|]. apply geometry_at_insert.
Qed.

(** A row function that computes [F] on every row computes [mapM F] on the
    rows of a collection. *)
Lemma wp_mapM_rows (f : Obj.loc → Obj.M Obj.loc) (F : Geometry → option Geometry) :
  (∀ l g g' h, Obj.geometry_at h l = Some g → F g = Some g' →
     Obj.wp (f l) h (λ l' h', h ⊆ h' ∧ Obj.geometry_at h' l' = Some g')) →
  ∀ rows gs gs' h, Obj.rows_hold h rows gs → mapM F gs = Some gs' →
    Obj.wp (mapM f rows) h (λ rows' h', h ⊆ h' ∧ Obj.rows_hold h' rows' gs').
Proof.
  intros Hf rows.
  induction rows as [|r rows IH]; intros gs gs' h Hrows Hmap.
  - apply Forall2_nil_inv_l in Hrows as ->. simpl in Hmap.
    injection Hmap as <-. apply wp_ret. split; [done|constructor].
  - apply Forall2_cons_inv_l in Hrows as (g & gs0 & Hr & Hrows & ->).
    simpl in Hmap.
    destruct (F g) as [g'|] eqn:HF; [|done]. simpl in Hmap.
    destruct (mapM F gs0) as [gs0'|] eqn:Hgs0; [|done].
    injection Hmap as <-. simpl.
    apply wp_bind. eapply wp_mono; [by eapply Hf|].
    intros l' h1 [Hsub1 Hl']. apply wp_bind.
    eapply wp_mono; [apply (IH gs0 gs0' h1); [by eapply rows_hold_weaken|done]|].
    intros rows' h2 [Hsub2 Hrows']. apply wp_ret. split.
    + by transitivity h1.
    + constructor; [by eapply geometry_at_weaken|done].
Qed.

Lemma wp_buffer poly g h :
  Obj.geometry_at h poly = Some g →
  Obj.wp (Obj.buffer poly) h
    (λ l h', h ⊆ h' ∧ Obj.geometry_at h' l = Some (buffer g)).
Proof.
  intros Hat. unfold Obj.buffer.
  apply wp_bind. eapply wp_load_geometry; [done|].
  apply wp_bind, wp_alloc. intros expanded Hnew.
  apply wp_bind. eapply wp_load_geometry; [apply geometry_at_insert|].
  apply wp_alloc. intros l Hl. split.
  - transitivity (<[expanded:=Obj.OGeometry (Geometry_buffer g dist 2)]> h);
      by apply insert_subseteq.
  - apply geometry_at_insert.
Qed.

Lemma wp_close_holes_loop area_max rings list_interiors h :
  Obj.wp (Obj.close_holes_loop area_max rings list_interiors) h
    (λ res h', h ⊆ h' ∧ res = close_holes_loop area_max rings list_interiors).
Proof.
  revert list_interiors h.
  induction rings as [|interior rest IH]; intros acc h; simpl.
  - by apply wp_ret.
  - apply wp_bind, wp_alloc. intros p Hp.
    apply wp_bind. eapply wp_load_geometry; [apply geometry_at_insert|].
    cbv beta iota.
    destruct (PrimFloat.ltb area_max (Polygon_area (Polygon_new interior [])));
      (eapply wp_mono; [apply IH|]); intros res h' [Hsub ->]; (split; [|done]);
      (etransitivity; [|exact Hsub]); by apply insert_subseteq.
Qed.

Lemma wp_close_holes poly pg area_max h :
  Obj.geometry_at h poly = Some (GPolygon pg) →
  Obj.wp (Obj.close_holes poly area_max) h
    (λ l h', h ⊆ h'
             ∧ Obj.geometry_at h' l = Some (GPolygon (close_holes pg area_max))).
Proof.
  intros Hat. unfold Obj.close_holes, close_holes.
  apply wp_bind. eapply wp_load_geometry; [done|]. cbv beta iota.
  destruct (PrimFloat.eqb area_max 0).
  - destruct (interiors pg) as [|r rs] eqn:Hint.
    + by apply wp_ret.
    + apply wp_alloc. intros l Hl. split; [by apply insert_subseteq|].
      apply geometry_at_insert.
  - apply wp_bind. eapply wp_mono; [apply wp_close_holes_loop|].
    intros res h1 [Hsub ->]. apply wp_alloc. intros l Hl. split.
    + etransitivity; [exact Hsub|]. by apply insert_subseteq.
    + apply geometry_at_insert.
Qed.

Lemma wp_geometry df s h :
  Obj.holds h df s →
  Obj.wp (Obj.geometry df) h (λ l h', h ⊆ h' ∧ Obj.holds h' l s).
Proof.
  intros Hdf. unfold Obj.geometry.
  apply wp_bind. eapply wp_load_rows; [done|]. intros rows Hrows.
  apply wp_alloc. intros l Hl. split; [by apply insert_subseteq|].
  destruct s as [c gs]. by apply holds_insert_series.
Qed.

Lemma wp_copy s0 s h :
  Obj.holds h s0 s →
  Obj.wp (Obj.copy s0) h (λ l h', h ⊆ h' ∧ Obj.holds h' l s).
Proof. apply wp_geometry. Qed.

Lemma wp_apply (f : Obj.loc → Obj.M Obj.loc) (F : Geometry → option Geometry)
    s0 s gs' h :
  (∀ l g g' h, Obj.geometry_at h l = Some g → F g = Some g' →
     Obj.wp (f l) h (λ l' h', h ⊆ h' ∧ Obj.geometry_at h' l' = Some g')) →
  Obj.holds h s0 s → mapM F (values s) = Some gs' →
  Obj.wp (Obj.GeoSeries_apply f s0) h
    (λ l h', h ⊆ h' ∧ Obj.holds h' l (mkGeoSeries (crs s) gs')).
Proof.
  intros Hf Hs Hmap. unfold Obj.GeoSeries_apply.
  apply wp_bind. eapply wp_load_rows; [done|]. intros rows Hrows.
  apply wp_bind. eapply wp_mono; [by eapply wp_mapM_rows|].
  intros rows' h1 [Hsub Hrows']. apply wp_alloc. intros l Hl. split.
  - etransitivity; [exact Hsub|]. by apply insert_subseteq.
  - by apply holds_insert_series.
Qed.

Lemma wp_close_holes_row area_max l g g' h :
  Obj.geometry_at h l = Some g → close_holes_row area_max g = Some g' →
  Obj.wp (Obj.close_holes l area_max) h
    (λ l' h', h ⊆ h' ∧ Obj.geometry_at h' l' = Some g').
Proof.
  intros Hat Hrow. destruct g as [pg|geoms]; [|done].
  injection Hrow as <-. by apply wp_close_holes.
Qed.

Lemma wp_fill_geopandas df frame area_max filled h :
  Obj.holds h df (geometry frame) →
  fill_geopandas frame area_max = Some filled →
  Obj.wp (Obj.fill_geopandas df area_max) h
    (λ l h', h ⊆ h' ∧ Obj.holds h' l filled).
Proof.
  intros Hdf (gs' & Hmap & [= <-])%bind_Some. unfold Obj.fill_geopandas.
  apply wp_bind. eapply wp_mono; [by apply wp_geometry|].
  intros s h1 [Hsub1 Hs]. apply wp_bind.
  eapply wp_mono.
  { eapply (wp_apply _ (close_holes_row area_max)); [|done..].
    intros l g g' h0. apply wp_close_holes_row. }
  intros l h2 [Hsub2 Hl]. apply wp_ret. split; [by transitivity h1|done].
Qed.

Lemma wp_explode g h :
  Obj.wp (Obj.explode g) h (λ l h', h ⊆ h' ∧ Obj.holds h' l (explode g)).
Proof.
  unfold Obj.explode. cbv zeta.
  apply wp_bind. eapply wp_mono; [apply wp_mapM_alloc|].
  intros parts h1 [Hsub Hparts]. apply wp_alloc. intros l Hl. split.
  - etransitivity; [exact Hsub|]. by apply insert_subseteq.
  - destruct (explode g) as [c gs]. by apply holds_insert_series.
Qed.

Lemma wp_loc_from s0 s start h :
  Obj.holds h s0 s →
  Obj.wp (Obj.loc_from s0 start) h
    (λ l h', h ⊆ h' ∧ Obj.holds h' l (loc_from s start)).
Proof.
  intros Hs. unfold Obj.loc_from.
  apply wp_bind. eapply wp_load_rows; [done|]. intros rows Hrows.
  apply wp_alloc. intros l Hl. split; [by apply insert_subseteq|].
  apply holds_insert_series; [done|]. by apply Forall2_drop.
Qed.

Lemma wp_pd_concat a b sa sb h :
  Obj.holds h a sa → Obj.holds h b sb →
  Obj.wp (Obj.pd_concat a b) h
    (λ l h', h ⊆ h' ∧ Obj.holds h' l (pd_concat sa sb)).
Proof.
  intros Ha Hb. unfold Obj.pd_concat.
  apply wp_bind. eapply wp_load_rows; [done|]. intros rows_a Hrows_a.
  apply wp_bind. eapply wp_load_rows; [done|]. intros rows_b Hrows_b.
  apply wp_alloc. intros l Hl. split; [by apply insert_subseteq|].
  apply holds_insert_series; [done|]. by apply Forall2_app.
Qed.

Lemma wp_splice_step clipped clipped_ s s_ i h :
  Obj.holds h clipped s → Obj.holds h clipped_ s_ →
  i < length (values s) →
  Obj.wp (Obj.splice_step clipped clipped_ i) h
    (λ l h', h ⊆ h' ∧ Obj.holds h' l (splice_step s s_ i)).
Proof.
  intros Hs Hs_ Hi. unfold Obj.splice_step, splice_step.
  apply wp_bind. eapply wp_load_rows; [done|]. intros rows Hrows.
  cbv beta iota.
  destruct (lookup_lt_is_Some_2 _ _ Hi) as [g Hg]. rewrite Hg.
  destruct (Forall2_lookup_r _ _ _ _ _ Hrows Hg) as (r & -> & Hr).
  apply wp_bind. eapply wp_load_geometry; [done|].
  destruct (isinstance_MultiPolygon g).
  - apply wp_bind. eapply wp_mono; [apply wp_explode|].
    intros clipped_explode h1 [Hsub1 Hexp].
    apply wp_bind. eapply wp_mono; [by eapply wp_loc_from, holds_weaken|].
    intros rest h2 [Hsub2 Hrest].
    eapply wp_mono; [by eapply wp_pd_concat; [|eapply holds_weaken]|].
    intros l h3 [Hsub3 Hl]. split; [|done].
    transitivity h1; [done|]. by transitivity h2.
  - by apply wp_ret.
Qed.

Lemma wp_splice_for clipped clipped_ s s_ idx h :
  Obj.holds h clipped s → Obj.holds h clipped_ s_ →
  (∀ i, i ∈ idx → i < length (values s)) →
  Obj.wp (Obj.splice_for clipped clipped_ idx) h
    (λ l h', h ⊆ h' ∧ Obj.holds h' l (foldl (splice_step s) s_ idx)).
Proof.
  revert clipped_ s_ h.
  induction idx as [|i idx IH]; intros clipped_ s_ h Hs Hs_ Hidx; simpl.
  - by apply wp_ret.
  - apply wp_bind.
    eapply wp_mono; [apply (wp_splice_step _ _ _ _ _ _ Hs Hs_); apply Hidx; left|].
    intros c1 h1 [Hsub1 Hc1].
    eapply wp_mono.
    { apply IH; [by eapply holds_weaken|done|].
      intros j Hj. apply Hidx. by right. }
    intros l h2 [Hsub2 Hl]. split; [by transitivity h1|done].
Qed.

Lemma wp_snapshot df frame h :
  Obj.holds h df (geometry frame) →
  Obj.wp (Obj.snapshot df) h (λ f h', f = frame ∧ h' = h).
Proof.
  intros Hdf. unfold Obj.snapshot.
  apply wp_bind. eapply wp_load_rows; [done|]. intros rows Hrows.
  cbv beta iota. apply wp_bind.
  eapply wp_mono; [by apply wp_mapM_load|].
  intros gs h' [-> ->]. apply wp_ret. by destruct frame.
Qed.

Lemma wp_new_frame f h :
  Obj.wp (Obj.new_frame f) h (λ l h', h ⊆ h' ∧ Obj.holds h' l (geometry f)).
Proof.
  unfold Obj.new_frame.
  apply wp_bind. eapply wp_mono; [apply wp_mapM_alloc|].
  intros rows h1 [Hsub Hrows]. apply wp_alloc. intros l Hl. split.
  - etransitivity; [exact Hsub|]. by apply insert_subseteq.
  - by apply holds_insert_frame.
Qed.

Lemma wp_apply_buffer s0 s h :
  Obj.holds h s0 s →
  Obj.wp (Obj.GeoSeries_apply Obj.buffer s0) h
    (λ l h', h ⊆ h' ∧ Obj.holds h' l (GeoSeries_apply buffer s)).
Proof.
  intros Hs.
  eapply (wp_apply _ (λ g, Some (buffer g))); [|done|].
  - intros l g g' h0 Hat [= <-]. by apply wp_buffer.
  - apply mapM_Some, Forall2_fmap_r, Forall_Forall2_diag, Forall_true. done.
Qed.

(** [Obj.dissolve_geopandas] returns, and the series it returns holds what
    [dissolve_geopandas] computes from the geometries of the frame. *)
Lemma wp_dissolve_geopandas df frame h :
  Obj.holds h df (geometry frame) →
  Obj.wp (Obj.dissolve_geopandas df) h
    (λ l h', h ⊆ h' ∧ Obj.holds h' l (dissolve_geopandas frame)).
Proof.
  intros Hdf.
  unfold Obj.dissolve_geopandas, dissolve_geopandas, splice_loop, index,
    buffered_clip, bounding_rect.
  apply wp_bind. eapply wp_mono; [by apply wp_snapshot|].
  intros ? ? [-> ->].
  destruct (total_bounds frame) as [[[left0 bottom0] right0] top0]. cbv zeta.
  set (rect_polygon := Polygon_new _ []).
  apply wp_bind, wp_alloc. intros polygon_geom Hpoly.
  set (h1 := <[polygon_geom:=Obj.OGeometry (GPolygon rect_polygon)]> h).
  apply wp_bind, wp_alloc. intros rect Hrect.
  set (h2 := <[rect:=Obj.OGeoDataFrame (df_crs frame) [polygon_geom]]> h1).
  assert (h ⊆ h2) as Hsub2.
  { transitivity h1; by apply insert_subseteq. }
  apply wp_bind. eapply wp_mono.
  { apply (wp_snapshot rect (mkGeoDataFrame (df_crs frame) [GPolygon rect_polygon])).
    apply (holds_insert_frame _ _ _ [polygon_geom]); [done|].
    constructor; [apply geometry_at_insert|constructor]. }
  intros ? ? [-> ->].
  apply wp_bind. eapply wp_mono; [apply wp_new_frame|].
  intros clipped0 h3 [Hsub3 Hclipped0].
  apply wp_bind. eapply wp_mono; [by apply wp_geometry|].
  intros s h4 [Hsub4 Hs].
  apply wp_bind. eapply wp_mono; [by apply wp_apply_buffer|].
  intros clipped h5 [Hsub5 Hclipped].
  apply wp_bind. eapply wp_mono; [by apply wp_copy|].
  intros clipped_ h6 [Hsub6 Hclipped_].
  apply wp_bind. eapply wp_load_rows; [by eapply holds_weaken|].
  intros rows Hrows. cbv beta iota.
  rewrite (Forall2_length _ _ _ Hrows).
  eapply wp_mono.
  { apply wp_splice_for; [by eapply holds_weaken|done|].
    intros i Hi%elem_of_seq. lia. }
  intros l h7 [Hsub7 Hl]. split; [|done].
  transitivity h2; [done|]. transitivity h3; [done|].
  transitivity h4; [done|]. transitivity h5; [done|]. by transitivity h6.
Qed.

(** On the path of line 50, [close_holes] returns the address it was given
    and allocates nothing. *)
Lemma close_holes_same_object poly pg area_max h :
  Obj.geometry_at h poly = Some (GPolygon pg) →
  interiors pg = [] →
  PrimFloat.eqb area_max 0 = true →
  Obj.close_holes poly area_max h = Some (poly, h).
Proof.
  intros Hat Hnone Hz. unfold Obj.close_holes.
  apply run_bind. exists (GPolygon pg), h. split.
  - by apply run_load_geometry.
  - by rewrite Hz, Hnone.
Qed.

(** C8: no operation changes an object of the store it is called in, its
    argument included.  [buffer], [fill_geopandas] and [dissolve_geopandas]
    return an object made during the call, and so does [close_holes], except
    when [area_max == 0] and the polygon has no interior ring: it then
    returns its argument.  On a polygon, respectively a collection of
    polygons, each operation returns, and the object returned holds what the
    function on values computes. *)
Theorem operations_preserve_their_arguments :
  (∀ poly, Obj.preserves (Obj.buffer poly) ∧ Obj.returns_new (Obj.buffer poly))
  ∧ (∀ df area_max,
       Obj.preserves (Obj.fill_geopandas df area_max)
       ∧ Obj.returns_new (Obj.fill_geopandas df area_max))
  ∧ (∀ df,
       Obj.preserves (Obj.dissolve_geopandas df)
       ∧ Obj.returns_new (Obj.dissolve_geopandas df))
  ∧ (∀ poly area_max,
       Obj.preserves (Obj.close_holes poly area_max)
       ∧ (∀ h l h', Obj.close_holes poly area_max h = Some (l, h') →
            (h !! l = None ∧ is_Some (h' !! l))
            ∨ (l = poly ∧ h' = h ∧ PrimFloat.eqb area_max 0 = true
               ∧ ∃ pg, Obj.geometry_at h poly = Some (GPolygon pg)
                       ∧ interiors pg = []))
       ∧ (∀ h pg, Obj.geometry_at h poly = Some (GPolygon pg) →
            interiors pg = [] → PrimFloat.eqb area_max 0 = true →
            Obj.close_holes poly area_max h = Some (poly, h)))
  ∧ (∀ h poly g, Obj.geometry_at h poly = Some g →
       Obj.wp (Obj.buffer poly) h
         (λ l h', Obj.geometry_at h' l = Some (buffer g)))
  ∧ (∀ h poly pg area_max, Obj.geometry_at h poly = Some (GPolygon pg) →
       Obj.wp (Obj.close_holes poly area_max) h
         (λ l h', Obj.geometry_at h' l = Some (GPolygon (close_holes pg area_max))))
  ∧ (∀ h df frame area_max filled, Obj.series_at h df = Some (geometry frame) →
       fill_geopandas frame area_max = Some filled →
       Obj.wp (Obj.fill_geopandas df area_max) h
         (λ l h', Obj.series_at h' l = Some filled))
  ∧ (∀ h df frame, Obj.series_at h df = Some (geometry frame) →
       Obj.wp (Obj.dissolve_geopandas df) h
         (λ l h', Obj.series_at h' l = Some (dissolve_geopandas frame))).
Proof.
  split_and!.
  - intros poly. split; [apply preserves_buffer|apply returns_new_buffer].
  - intros df area_max.
    split; [apply preserves_fill_geopandas|apply returns_new_fill_geopandas].
  - intros df.
    split; [apply preserves_dissolve_geopandas|apply returns_new_dissolve_geopandas].
  - intros poly area_max. split_and!.
    + apply preserves_close_holes.
    + apply close_holes_result.
    + intros h pg. apply close_holes_same_object.
  - intros h poly g Hat.
    eapply wp_mono; [by apply wp_buffer|]. by intros l h' [_ ?].
  - intros h poly pg area_max Hat.
    eapply wp_mono; [by apply wp_close_holes|]. by intros l h' [_ ?].
  - intros h df frame area_max filled Hdf%series_at_holds Hfill.
    eapply wp_mono; [by eapply wp_fill_geopandas|].
    intros l h' [_ ?]. by apply series_at_holds.
  - intros h df frame Hdf%series_at_holds.
    eapply wp_mono; [by eapply wp_dissolve_geopandas|].
    intros l h' [_ ?]. by apply series_at_holds.
Qed.

End store.

(** ** What the series returned by dissolve_geopandas shares with its input *)

Section store_sharing.
Context `{GeoBackend}.

Lemma wlp_ret {A} (a : A) h (Q : A → Obj.heap → Prop) :
  Q a h → Obj.wlp (mret a) h Q.
Proof. intros HQ a' h' [-> ->]%run_ret. done. Qed.

Lemma wlp_raise {A} h (Q : A → Obj.heap → Prop) : Obj.wlp Obj.raise h Q.
Proof. by intros a h'. Qed.

Lemma wlp_bind {A B} (m : Obj.M A) (f : A → Obj.M B) h (Q : B → Obj.heap → Prop) :
  Obj.wlp m h (λ a h1, Obj.wlp (f a) h1 Q) → Obj.wlp (m ≫= f) h Q.
Proof.
  intros Hm b h' (a & h1 & Hrun & Hrun')%run_bind. by eapply Hm.
Qed.

Lemma wlp_mono {A} (m : Obj.M A) h (Q Q' : A → Obj.heap → Prop) :
  Obj.wlp m h Q → (∀ a h', Q a h' → Q' a h') → Obj.wlp m h Q'.
Proof. intros Hm Himp a h' Hrun. by apply Himp, Hm. Qed.

Lemma wlp_preserves {A} (m : Obj.M A) h :
  Obj.preserves m → Obj.wlp m h (λ _ h', h ⊆ h').
Proof. intros Hm a h' Hrun. by eapply Hm. Qed.

Lemma wlp_alloc o h (Q : Obj.loc → Obj.heap → Prop) :
  (∀ l, h !! l = None → Q l (<[l:=o]> h)) → Obj.wlp (Obj.alloc o) h Q.
Proof. intros HQ l h' [-> ->]%run_alloc. apply HQ, fresh_unused. Qed.

Lemma wlp_load_rows l h (Q : CRS * list Obj.loc → Obj.heap → Prop) :
  (∀ c rows, h !! l = Some (Obj.OGeoSeries c rows)
             ∨ h !! l = Some (Obj.OGeoDataFrame c rows) → Q (c, rows) h) →
  Obj.wlp (Obj.load_rows l) h Q.
Proof. intros HQ [c rows] h' [Hat ->]%run_load_rows. by apply HQ. Qed.

Lemma wlp_load_geometry l h (Q : Geometry → Obj.heap → Prop) :
  (∀ g, Obj.geometry_at h l = Some g → Q g h) →
  Obj.wlp (Obj.load_geometry l) h Q.
Proof. intros HQ g h' [Hat ->]%run_load_geometry. by apply HQ. Qed.

(** The rows of the series at [l], when the store says which they are. *)
Lemma wlp_load_series l c rows h (Q : CRS * list Obj.loc → Obj.heap → Prop) :
  h !! l = Some (Obj.OGeoSeries c rows) →
  Q (c, rows) h → Obj.wlp (Obj.load_rows l) h Q.
Proof.
  intros Hl HQ. apply wlp_load_rows. intros c' rows' [Hat|Hat];
    rewrite Hl in Hat; by simplify_eq.
Qed.

(** A row function that returns new objects gives rows that are all new. *)
Lemma wlp_mapM_new {A} (f : A → Obj.M Obj.loc) (l : list A) h0 h :
  (∀ a, Obj.preserves (f a)) → (∀ a, Obj.returns_new (f a)) →
  h0 ⊆ h →
  Obj.wlp (mapM f l) h
    (λ rows' h', h ⊆ h' ∧ Forall (λ r, h0 !! r = None) rows').
Proof.
  intros Hpres Hnew. revert h.
  induction l as [|a l IH]; intros h Hsub; simpl.
  - by apply wlp_ret.
  - apply wlp_bind. intros y h1 Hrun.
    pose proof (Hpres _ _ _ _ Hrun) as Hsub1.
    destruct (Hnew _ _ _ _ Hrun) as [Hy _].
    apply wlp_bind. eapply wlp_mono; [apply IH; by transitivity h|].
    intros rows' h2 [Hsub2 Hrows']. apply wlp_ret. split.
    + by transitivity h1.
    + constructor; [by eapply lookup_weaken_None|done].
Qed.

Lemma wlp_explode_new g h0 h :
  h0 ⊆ h →
  Obj.wlp (Obj.explode g) h
    (λ l h', h ⊆ h' ∧ Obj.made_since h0 h' l).
Proof.
  intros Hsub. unfold Obj.explode. cbv zeta.
  apply wlp_bind. eapply wlp_mono.
  { apply (wlp_mapM_new _ _ h0);
      [intros a; apply preserves_alloc|intros a; apply returns_new_alloc|done]. }
  intros parts h1 [Hsub1 Hparts]. apply wlp_alloc. intros l Hl. split.
  - etransitivity; [exact Hsub1|]. by apply insert_subseteq.
  - eexists _, parts. by rewrite lookup_insert_eq.
Qed.

Lemma wlp_splice_step_new h0 clipped clipped_ i c rows1 h :
  h0 ⊆ h →
  h !! clipped = Some (Obj.OGeoSeries c rows1) →
  Forall (λ r, h0 !! r = None) rows1 →
  Obj.made_since h0 h clipped_ →
  Obj.wlp (Obj.splice_step clipped clipped_ i) h
    (λ l h', h ⊆ h' ∧ Obj.made_since h0 h' l).
Proof.
  intros Hsub Hclipped Hrows1 Hmade. unfold Obj.splice_step.
  apply wlp_bind. eapply wlp_load_series; [done|]. cbv beta iota.
  destruct (rows1 !! i) as [r|]; [|apply wlp_raise].
  apply wlp_bind, wlp_load_geometry. intros g Hg.
  destruct (isinstance_MultiPolygon g); [|by apply wlp_ret].
  apply wlp_bind. eapply wlp_mono; [by apply (wlp_explode_new _ h0)|].
  intros clipped_explode h1 (Hsub1 & c_e & parts & Hce & Hparts).
  apply wlp_bind. unfold Obj.loc_from.
  apply wlp_bind. eapply wlp_load_series; [by eapply lookup_weaken|].
  cbv beta iota. apply wlp_alloc. intros rest Hrest.
  unfold Obj.pd_concat.
  apply wlp_bind. eapply wlp_load_series; [apply lookup_insert_eq|].
  cbv beta iota.
  apply wlp_bind. eapply wlp_load_series.
  { rewrite lookup_insert_ne; [done|]. intros ->. congruence. }
  cbv beta iota. apply wlp_alloc. intros l Hl. split.
  - transitivity h1; [done|].
    transitivity (<[rest:=Obj.OGeoSeries c (drop (S i) rows1)]> h1);
      by apply insert_subseteq.
  - eexists _, _. rewrite lookup_insert_eq. split; [done|].
    apply Forall_app. split; [by apply Forall_drop|done].
Qed.

Lemma made_since_weaken h0 h h' l :
  h ⊆ h' → Obj.made_since h0 h l → Obj.made_since h0 h' l.
Proof.
  intros Hsub (c & rows & Hl & Hrows). exists c, rows.
  split; [by eapply lookup_weaken|done].
Qed.

Lemma wlp_splice_for_new h0 clipped clipped_ idx c rows1 h :
  h0 ⊆ h →
  h !! clipped = Some (Obj.OGeoSeries c rows1) →
  Forall (λ r, h0 !! r = None) rows1 →
  Obj.made_since h0 h clipped_ →
  Obj.wlp (Obj.splice_for clipped clipped_ idx) h
    (λ l h', h ⊆ h' ∧ Obj.made_since h0 h' l).
Proof.
  revert clipped_ h.
  induction idx as [|i idx IH]; intros clipped_ h Hsub Hclipped Hrows1 Hmade;
    simpl.
  - by apply wlp_ret.
  - apply wlp_bind. eapply wlp_mono; [by eapply wlp_splice_step_new|].
    intros c1 h1 [Hsub1 Hmade1].
    eapply wlp_mono.
    { apply IH; [by transitivity h|by eapply lookup_weaken|done..]. }
    intros l h2 [Hsub2 Hl]. split; [by transitivity h1|done].
Qed.

(** X14: the rows of the series [dissolve_geopandas] returns are all objects
    made during the call: the series shares no geometry with the store the
    function was called in, its argument included. *)
Theorem dissolve_geopandas_shares_no_geometry (df : Obj.loc) (h : Obj.heap)
    (l : Obj.loc) (h' : Obj.heap) :
  Obj.dissolve_geopandas df h = Some (l, h') →
  ∃ c rows, h' !! l = Some (Obj.OGeoSeries c rows)
            ∧ Forall (λ r, h !! r = None) rows.
Proof.
  revert l h'.
  change (Obj.wlp (Obj.dissolve_geopandas df) h (λ l h', Obj.made_since h h' l)).
  unfold Obj.dissolve_geopandas.
  apply wlp_bind.
  eapply wlp_mono; [apply wlp_preserves, preserves_snapshot|].
  intros frame h1 Hsub1.
  destruct (total_bounds frame) as [[[left0 bottom0] right0] top0]. cbv zeta.
  set (rect_polygon := Polygon_new _ []).
  apply wlp_bind, wlp_alloc. intros polygon_geom Hpoly.
  set (h2 := <[polygon_geom:=Obj.OGeometry (GPolygon rect_polygon)]> h1).
  apply wlp_bind, wlp_alloc. intros rect Hrect.
  set (h3 := <[rect:=Obj.OGeoDataFrame (df_crs frame) [polygon_geom]]> h2).
  assert (h ⊆ h3) as Hsub3.
  { transitivity h1; [done|]. transitivity h2; by apply insert_subseteq. }
  apply wlp_bind.
  eapply wlp_mono; [apply wlp_preserves, preserves_snapshot|].
  intros rect_frame h4 Hsub4.
  apply wlp_bind.
  eapply wlp_mono; [apply wlp_preserves, preserves_new_frame|].
  intros clipped0 h5 Hsub5.
  apply wlp_bind.
  eapply wlp_mono; [apply wlp_preserves, preserves_geometry|].
  intros s h6 Hsub6.
  assert (h ⊆ h6) as Hsub.
  { transitivity h3; [done|]. transitivity h4; [done|]. by transitivity h5. }
  apply wlp_bind. unfold Obj.GeoSeries_apply.
  apply wlp_bind, wlp_load_rows. intros c rows0 _. cbv beta iota.
  apply wlp_bind. eapply wlp_mono.
  { apply (wlp_mapM_new _ _ h);
      [apply preserves_buffer|apply returns_new_buffer|done]. }
  intros rows1 h7 [Hsub7 Hrows1]. apply wlp_alloc. intros clipped Hclipped.
  set (h8 := <[clipped:=Obj.OGeoSeries c rows1]> h7).
  apply wlp_bind. unfold Obj.copy.
  apply wlp_bind. eapply wlp_load_series; [apply lookup_insert_eq|].
  cbv beta iota. apply wlp_alloc. intros clipped_ Hclipped_.
  set (h9 := <[clipped_:=Obj.OGeoSeries c rows1]> h8).
  assert (h9 !! clipped = Some (Obj.OGeoSeries c rows1)) as Hat.
  { unfold h9. rewrite lookup_insert_ne; [apply lookup_insert_eq|].
    intros ->. unfold h8 in Hclipped_. by rewrite lookup_insert_eq in Hclipped_. }
  apply wlp_bind. eapply wlp_load_series; [done|]. cbv beta iota.
  eapply wlp_mono.
  { apply (wlp_splice_for_new h _ _ _ c rows1); [|done..|].
    - transitivity h6; [done|]. transitivity h7; [done|].
      transitivity h8; by apply insert_subseteq.
    - exists c, rows1. split; [apply lookup_insert_eq|done]. }
  by intros res h10 [_ Hres].
Qed.

End store_sharing.

(** ** The statements on concrete layers *)

(** [close_holes] on the plate: with threshold 1 the hole of area 1 is
    filled and the hole of area 4 stays; with threshold 0 both are filled. *)
Example close_holes_plate :
  close_holes (H:=Sample.backend) Sample.plate 1
  = mkPolygon (Sample.square 0 0 10) [Sample.square 5 5 2]
  ∧ close_holes (H:=Sample.backend) Sample.plate 0
    = mkPolygon (Sample.square 0 0 10) [].
Proof. split; vm_compute; reflexivity. Qed.

(** Two disjoint squares dissolve into two rows, one square into one. *)
Example dissolve_geopandas_squares :
  values (dissolve_geopandas (H:=Sample.backend) Sample.two_squares)
  = [GPolygon Sample.west; GPolygon Sample.east]
  ∧ values (dissolve_geopandas (H:=Sample.backend) Sample.one_square)
    = [GPolygon Sample.west].
Proof. split; vm_compute; reflexivity. Qed.

(** The loop on a series with two [MultiPolygon] rows (more rows than
    clipping the one-row rectangle gives): the series returned is the
    splice of row 1, the last of them. *)
Example splice_loop_two_multipolygons :
  values (splice_loop (H:=Sample.backend) Sample.two_multipolygons)
  = [GPolygon Sample.plate].
Proof. vm_compute. reflexivity. Qed.



(** The plate and the threshold 1. *)
Lemma close_holes_keeps_larger_holes_witness :
  PrimFloat.eqb 1 0 = false
  ∧ interiors (close_holes (H:=Sample.backend) Sample.plate 1)
    = filter (hole_larger (H:=Sample.backend) 1) (interiors Sample.plate).
Proof.
  split; [reflexivity|].
  apply (close_holes_keeps_larger_holes (H:=Sample.backend) Sample.plate 1).
  reflexivity.
Defined.

(** The plate and the threshold -1: both holes stay. *)
Lemma close_holes_interiors_sublist_witness :
  PrimFloat.ltb (-1) 0 = true
  ∧ interiors (close_holes (H:=Sample.backend) Sample.plate (-1))
    = interiors Sample.plate.
Proof.
  split; [reflexivity|].
  apply (close_holes_interiors_sublist (H:=Sample.backend) Sample.plate (-1)).
  - reflexivity.
  - intros interior Hin.
    apply elem_of_cons in Hin as [->|Hin]; [reflexivity|].
    apply list_elem_of_singleton in Hin as ->. reflexivity.
Defined.

(** The layer of two squares, of total bounds (0, 0, 4, 1). *)
Lemma bounding_rect_corners_witness :
  total_bounds (GeoBackend:=Sample.backend) Sample.two_squares = (0, 0, 4, 1)%float
  ∧ bounding_rect (H:=Sample.backend) Sample.two_squares
    = mkGeoDataFrame Sample.wgs84
        [GPolygon (mkPolygon [(-1, 2); (5, 2); (5, -1); (-1, -1); (-1, 2)]%float [])].
Proof.
  split; [reflexivity|].
  apply (bounding_rect_corners (H:=Sample.backend) Sample.two_squares 0 0 4 1).
  reflexivity.
Defined.

(** The layer of one square: its buffered clip result is one [Polygon]. *)
Lemma dissolve_geopandas_no_multipolygon_witness :
  dissolve_geopandas (H:=Sample.backend) Sample.one_square
  = buffered_clip (H:=Sample.backend) Sample.one_square.
Proof.
  apply (dissolve_geopandas_no_multipolygon (H:=Sample.backend) Sample.one_square).
  intros g Hg. apply list_elem_of_singleton in Hg as ->. reflexivity.
Defined.

(** [close_holes] with threshold 0 on the square, which has no hole, returns
    address 0, the address it was given: the object returned is not a new
    one, so "each operation returns a newly constructed value" fails. *)
Lemma close_holes_returns_its_argument :
  Obj.close_holes (H:=Sample.backend) 0 0 Sample.one_polygon_store
  = Some (0, Sample.one_polygon_store)
  ∧ is_Some (Sample.one_polygon_store !! 0)
  ∧ ¬ (∀ poly area_max,
         Obj.returns_new (Obj.close_holes (H:=Sample.backend) poly area_max)).
Proof.
  assert (Obj.close_holes (H:=Sample.backend) 0 0 Sample.one_polygon_store
          = Some (0, Sample.one_polygon_store)) as Hrun by reflexivity.
  split_and!; [done|by eexists|].
  intros Hnew. destruct (Hnew 0 0%float _ _ _ Hrun) as [Hfresh _].
  discriminate Hfresh.
Qed.

(** With a positive threshold the same call returns a new object and the
    square at address 0 is still there. *)
Example close_holes_makes_a_new_polygon :
  ∃ h', Obj.close_holes (H:=Sample.backend) 0 1 Sample.one_polygon_store = Some (1, h')
        ∧ Obj.geometry_at h' 0 = Some (GPolygon Sample.west)
        ∧ Obj.geometry_at h' 1 = Some (GPolygon Sample.west).
Proof. eexists. split_and!; reflexivity. Qed.

(** The plate, filled with threshold 1 and then with threshold 2. *)
Lemma close_holes_raise_threshold_witness :
  PrimFloat.eqb 1 0 = false
  ∧ PrimFloat.leb 1 2 = true
  ∧ close_holes (H:=Sample.backend) (close_holes (H:=Sample.backend) Sample.plate 1) 2
    = close_holes (H:=Sample.backend) Sample.plate 2.
Proof.
  split_and!; [reflexivity..|].
  apply (close_holes_raise_threshold (H:=Sample.backend) Sample.plate 1 2);
    reflexivity.
Defined.

(** The plate and the threshold NaN. *)
Lemma close_holes_nan_witness :
  PrimFloat.is_nan nan = true
  ∧ close_holes (H:=Sample.backend) Sample.plate nan
    = mkPolygon (exterior Sample.plate) [].
Proof.
  split; [reflexivity|].
  apply (close_holes_nan (H:=Sample.backend) Sample.plate nan). reflexivity.
Defined.

(** The frame of the plate and a square has no empty polygon. *)
Lemma plate_and_square_no_empty_polygon :
  no_empty_polygon (df_rows Sample.plate_and_square).
Proof.
  intros poly Hin.
  apply elem_of_cons in Hin as [[= ->]|Hin]; [done|].
  apply list_elem_of_singleton in Hin as [= ->]. done.
Defined.

(** The frame of the plate and a square, filled with threshold 1. *)
Lemma fill_geopandas_rows_witness :
  fill_geopandas (H:=Sample.backend) Sample.plate_and_square 1
  = Some (mkGeoSeries None
            [GPolygon (mkPolygon (Sample.square 0 0 10) [Sample.square 5 5 2]);
             GPolygon Sample.west])
  ∧ Forall (λ g, ∃ poly, g = GPolygon poly
                         ∧ exterior poly ≠ []
                         ∧ if PrimFloat.eqb 1 0
                           then interiors poly = []
                           else Forall (hole_larger (H:=Sample.backend) 1)
                                       (interiors poly))
      [GPolygon (mkPolygon (Sample.square 0 0 10) [Sample.square 5 5 2]);
       GPolygon Sample.west].
Proof.
  split; [vm_compute; reflexivity|].
  apply (fill_geopandas_rows (H:=Sample.backend) Sample.plate_and_square 1
           (mkGeoSeries None
              [GPolygon (mkPolygon (Sample.square 0 0 10) [Sample.square 5 5 2]);
               GPolygon Sample.west])).
  - apply plate_and_square_no_empty_polygon.
  - vm_compute. reflexivity.
Defined.

(** The frame of the plate and a square, filled twice with threshold 1. *)
Lemma fill_geopandas_idempotent_witness :
  fill_geopandas (H:=Sample.backend) Sample.plate_and_square 1
    ≫= (λ filled, fill_geopandas (H:=Sample.backend) (as_frame filled) 1)
  = fill_geopandas (H:=Sample.backend) Sample.plate_and_square 1.
Proof.
  apply (fill_geopandas_idempotent (H:=Sample.backend) Sample.plate_and_square 1).
  apply plate_and_square_no_empty_polygon.
Defined.

(** A [MultiPolygon] in row 0 followed by a [Polygon]: the squares come
    after the plate in the series returned, before it in the explosion. *)
Lemma splice_loop_permutes_explosion_witness :
  values (splice_loop (H:=Sample.backend) Sample.multipolygon_then_plate)
  = [GPolygon Sample.plate; GPolygon Sample.west; GPolygon Sample.east]
  ∧ explode_all (values Sample.multipolygon_then_plate)
    = [GPolygon Sample.west; GPolygon Sample.east; GPolygon Sample.plate].
Proof.
  assert (∀ j g, 0 < j → values Sample.multipolygon_then_plate !! j = Some g →
            isinstance_MultiPolygon g = false) as Hrest.
  { intros j g Hj Hg. destruct j as [|j]; [lia|].
    destruct j as [|j]; [|discriminate Hg]. by injection Hg as <-. }
  destruct (splice_loop_permutes_explosion (H:=Sample.backend)
              Sample.multipolygon_then_plate Hrest) as (_ & Hfirst & _).
  exact (Hfirst [Sample.west; Sample.east] eq_refl).
Defined.

(** The layer of two disjoint squares: the clip result has one row. *)
Lemma dissolve_geopandas_single_row_witness :
  length (df_rows (gpd_clip (GeoBackend:=Sample.backend)
                     (bounding_rect (H:=Sample.backend) Sample.two_squares)
                     Sample.two_squares)) = 1
  ∧ values (dissolve_geopandas (H:=Sample.backend) Sample.two_squares)
    = explode_all (values (buffered_clip (H:=Sample.backend) Sample.two_squares)).
Proof.
  split; [reflexivity|].
  apply (dissolve_geopandas_single_row (H:=Sample.backend) Sample.two_squares).
  vm_compute. lia.
Defined.

(** The layer of two squares in a store: the call returns, and no row of the
    series returned is at an address of the store it started from. *)
Lemma dissolve_geopandas_shares_no_geometry_witness :
  ∃ l h',
    Obj.dissolve_geopandas (H:=Sample.backend) 2 Sample.layer_store = Some (l, h')
    ∧ ∃ c rows, h' !! l = Some (Obj.OGeoSeries c rows)
                ∧ Forall (λ r, Sample.layer_store !! r = None) rows.
Proof.
  destruct (Obj.dissolve_geopandas (H:=Sample.backend) 2 Sample.layer_store)
    as [[l h']|] eqn:Hrun.
  - exists l, h'. split; [reflexivity|].
    exact (dissolve_geopandas_shares_no_geometry (H:=Sample.backend)
             2 Sample.layer_store l h' Hrun).
  - vm_compute in Hrun. discriminate Hrun.
Defined.
